(** * The arithmetic-expression interpreter of [task_1/sorted-data/py/task_2.py]

    A shallow embedding of the three classes [Lexer], [Parser] and
    [Interpreter] and of the body of [main]'s [try] block, followed by the
    properties established about them.

    Conventions of the embedding.
    - A Python [str] is a [string]; an [ascii] is read as the code point of
      the same number, so the texts covered are those of code points below
      256.  [isspace] and [isdigit] are CPython's tables on that range.
    - Python's [int] is [Z]; Python's [float] is IEEE-754 binary64
      ([PrimFloat.float]).
    - A raised exception is the [Raise] outcome of the [result] type.  The
      lexer is a mutable object that survives an exception, so its methods
      return the outcome together with the lexer afterwards.
    - A [while] loop is a recursion on a counter.  Every counter is computed
      from the state, the loop equations proved below do not mention it, and
      [FuelExhausted] (the outcome of an exhausted counter) is proved never
      to occur.  CPython's own limits (recursion depth, the maximal number of
      digits [int] converts) are not part of the model; the properties that
      depend on them are stated for texts within [within_limits]. *)

From Stdlib Require Import ZArith NArith Bool String Ascii List Lia.
From Stdlib Require Import DecimalString DecimalPos DecimalN.
From Stdlib Require Import Floats.
Import ListNotations.

Open Scope string_scope.
Open Scope Z_scope.

(** ** Python values, exceptions and the built-in operations the source uses *)

Inductive pyval : Type :=
| VInt (z : Z)
| VFloat (f : float)
| VStr (s : string)
| VNone.

Inductive exception : Type :=
| LexicalError (c : ascii)          (* raise LexicalError(f"...: {current_char}") *)
| ParsingError                      (* Parser.error *)
| ZeroDivisionError
| GenericException (method_name : string)  (* Interpreter.generic_visit *)
| ValueError                        (* int() on an invalid literal *)
| OverflowError                     (* int too large for a float *)
| TypeError                         (* operands of unsupported types *)
| FuelExhausted.                    (* loop counter of the model used up *)

Inductive result (A : Type) : Type :=
| Ok (a : A)
| Raise (e : exception).
Arguments Ok {A} a.
Arguments Raise {A} e.

Definition bind {A B : Type} (r : result A) (k : A -> result B) : result B :=
  match r with
  | Ok a => k a
  | Raise e => Raise e
  end.

Notation "x <- r ;; k" := (bind r (fun x => k))
  (at level 61, r at next level, right associativity).
Notation "' p <- r ;; k" := (bind r (fun p => k))
  (at level 61, p pattern, r at next level, right associativity).

(** [while cond: body], run on a state of type [St]. *)
Fixpoint while {St : Type} (cond : St -> bool) (body : St -> St)
         (fuel : nat) (s : St) : St :=
  match fuel with
  | O => s
  | S fuel' => if cond s then while cond body fuel' (body s) else s
  end.

Definition code (c : ascii) : N := N_of_ascii c.

(** [str.isspace] on one character. *)
Definition isspace (c : ascii) : bool :=
  let n := code c in
  ((9 <=? n) && (n <=? 13) || (28 <=? n) && (n <=? 32)
   || (n =? 133) || (n =? 160))%N.

(** [str.isdigit] on one character: the decimal digits and the three
    superscript digits of Latin-1. *)
Definition isdigit (c : ascii) : bool :=
  let n := code c in
  ((48 <=? n) && (n <=? 57) || (n =? 178) || (n =? 179) || (n =? 185))%N.

(** [int(result)] for the [result] that [Lexer.integer] builds, a run of
    [isdigit] characters: its value in base ten when every character is one
    of 0..9, [ValueError] otherwise and for the empty string. *)
Definition int_of_digits (s : string) : result Z :=
  match NilZero.uint_of_string s with
  | Some d => Ok (Z.of_N (N.of_uint d))
  | None => Raise ValueError
  end.

(** [str(n)] for a non-negative [int]. *)
Definition str_of_nat (n : N) : string := NilZero.string_of_uint (N.to_uint n).

(** [float(z)]: the nearest binary64, ties to even. *)
Definition float_of_int (z : Z) : result float :=
  match binary_normalize prec emax z 0 false with
  | S754_infinity _ => Raise OverflowError
  | sf => Ok (SF2Prim sf)
  end.

(** [a / b] on two [int]s: the quotient rounded once to the nearest
    binary64.  The quotient is taken with more than 64 bits and a sticky
    bit, then rounded. *)
Definition int_truediv (a b : Z) : result float :=
  if b =? 0 then Raise ZeroDivisionError
  else
    let negate := xorb (a <? 0) (b <? 0) in
    let a' := Z.abs a in
    let b' := Z.abs b in
    let k := Z.max 0 (64 + Z.log2 b' - Z.log2 a') in
    let q := (a' * 2 ^ k) / b' in
    let r := (a' * 2 ^ k) mod b' in
    let m := 2 * q + (if r =? 0 then 0 else 1) in
    match binary_normalize prec emax (if negate then - m else m) (- k - 1) negate with
    | S754_infinity _ => Raise OverflowError
    | sf => Ok (SF2Prim sf)
    end.

Fixpoint str_repeat (s : string) (n : nat) : string :=
  match n with
  | O => ""
  | S n' => s ++ str_repeat s n'
  end.

(** [x + y] *)
Definition py_add (x y : pyval) : result pyval :=
  match x, y with
  | VInt a, VInt b => Ok (VInt (a + b))
  | VInt a, VFloat g => f <- float_of_int a ;; Ok (VFloat (f + g)%float)
  | VFloat f, VInt b => g <- float_of_int b ;; Ok (VFloat (f + g)%float)
  | VFloat f, VFloat g => Ok (VFloat (f + g)%float)
  | VStr s, VStr t => Ok (VStr (s ++ t))
  | _, _ => Raise TypeError
  end.

(** [x - y] *)
Definition py_sub (x y : pyval) : result pyval :=
  match x, y with
  | VInt a, VInt b => Ok (VInt (a - b))
  | VInt a, VFloat g => f <- float_of_int a ;; Ok (VFloat (f - g)%float)
  | VFloat f, VInt b => g <- float_of_int b ;; Ok (VFloat (f - g)%float)
  | VFloat f, VFloat g => Ok (VFloat (f - g)%float)
  | _, _ => Raise TypeError
  end.

(** [x * y] *)
Definition py_mul (x y : pyval) : result pyval :=
  match x, y with
  | VInt a, VInt b => Ok (VInt (a * b))
  | VInt a, VFloat g => f <- float_of_int a ;; Ok (VFloat (f * g)%float)
  | VFloat f, VInt b => g <- float_of_int b ;; Ok (VFloat (f * g)%float)
  | VFloat f, VFloat g => Ok (VFloat (f * g)%float)
  | VStr s, VInt n | VInt n, VStr s => Ok (VStr (str_repeat s (Z.to_nat n)))
  | _, _ => Raise TypeError
  end.

(** [x / y] (true division) *)
Definition py_truediv (x y : pyval) : result pyval :=
  let float_div (f g : float) : result pyval :=
    if (g =? 0)%float then Raise ZeroDivisionError else Ok (VFloat (f / g)%float) in
  match x, y with
  | VInt a, VInt b => f <- int_truediv a b ;; Ok (VFloat f)
  | VInt a, VFloat g => f <- float_of_int a ;; float_div f g
  | VFloat f, VInt b => g <- float_of_int b ;; float_div f g
  | VFloat f, VFloat g => float_div f g
  | _, _ => Raise TypeError
  end.

(** [x == 0] *)
Definition py_eq_zero (x : pyval) : bool :=
  match x with
  | VInt z => z =? 0
  | VFloat f => (f =? 0)%float
  | VStr _ | VNone => false
  end.

(** ** Tokens *)

Inductive TokenType : Type :=
| INTEGER | PLUS | MINUS | MUL | DIV | LPAREN | RPAREN | EOF.

Definition TokenType_eqb (a b : TokenType) : bool :=
  match a, b with
  | INTEGER, INTEGER | PLUS, PLUS | MINUS, MINUS | MUL, MUL | DIV, DIV
  | LPAREN, LPAREN | RPAREN, RPAREN | EOF, EOF => true
  | _, _ => false
  end.

Record Token : Type := mkToken { type : TokenType; value : pyval }.

(** ** class Lexer *)

Module Lexer.

Record t : Type := mk { text : string; pos : nat; current_char : option ascii }.

(** [__init__] *)
Definition init (text : string) : t :=
  mk text 0 (match text with
             | EmptyString => None
             | _ => String.get 0 text
             end).

Definition advance (l : t) : t :=
  let pos' := (pos l + 1)%nat in
  mk (text l) pos'
     (if (pos' <? String.length (text l))%nat
      then String.get pos' (text l) else None).

(** A bound on the number of [advance] steps a loop can take from [l]:
    every loop of the lexer stops on [current_char = None]. *)
Definition remaining (l : t) : nat :=
  match current_char l with
  | None => O
  | Some _ => S (String.length (text l) - pos l)
  end.

Definition at_space (l : t) : bool :=
  match current_char l with
  | Some c => isspace c
  | None => false
  end.

Definition at_digit (l : t) : bool :=
  match current_char l with
  | Some c => isdigit c
  | None => false
  end.

Definition skip_whitespace (l : t) : t :=
  while at_space advance (remaining l) l.

(** The loop of [integer], on the pair of the local [result] and the
    lexer. *)
Definition integer_step (rl : string * t) : string * t :=
  let '(result, l) := rl in
  (match current_char l with
   | Some c => result ++ String c ""
   | None => result
   end, advance l).

Definition integer (l : t) : result Z * t :=
  let '(result, l') :=
    while (fun rl => at_digit (snd rl)) integer_step (remaining l) ("", l) in
  (int_of_digits result, l').

Fixpoint get_next_token_loop (fuel : nat) (l : t) : result Token * t :=
  match current_char l with
  | None => (Ok (mkToken EOF VNone), l)
  | Some c =>
    if isspace c then
      match fuel with
      | O => (Raise FuelExhausted, l)
      | S fuel' => get_next_token_loop fuel' (skip_whitespace l)
      end
    else if isdigit c then
      let '(r, l') := integer l in
      (v <- r ;; Ok (mkToken INTEGER (VInt v)), l')
    else if Ascii.eqb c "+" then (Ok (mkToken PLUS (VStr "+")), advance l)
    else if Ascii.eqb c "-" then (Ok (mkToken MINUS (VStr "-")), advance l)
    else if Ascii.eqb c "*" then (Ok (mkToken MUL (VStr "*")), advance l)
    else if Ascii.eqb c "/" then (Ok (mkToken DIV (VStr "/")), advance l)
    else if Ascii.eqb c "(" then (Ok (mkToken LPAREN (VStr "(")), advance l)
    else if Ascii.eqb c ")" then (Ok (mkToken RPAREN (VStr ")")), advance l)
    else (Raise (LexicalError c), l)
  end.

Definition get_next_token (l : t) : result Token * t :=
  get_next_token_loop (remaining l) l.

(** The lexer after [n] calls of [get_next_token], whatever they return
    or raise. *)
Fixpoint after_pulls (n : nat) (l : t) : t :=
  match n with
  | O => l
  | S n' => after_pulls n' (snd (get_next_token l))
  end.

(** The cursor invariant: the position is within the text and
    [current_char] is the character there, or [None] at the end. *)
Definition cursor_inv (l : t) : Prop :=
  (pos l <= String.length (text l))%nat /\
  current_char l =
    (if (pos l <? String.length (text l))%nat
     then String.get (pos l) (text l) else None).

End Lexer.

(** ** The syntax tree: [BinOp], [Num], and the [None] that [factor] returns
    when it matches neither of its two branches *)

Inductive AST : Type :=
| BinOp (left : AST) (op : Token) (right : AST)
| Num (token : Token)
| PyNone.

(** [type(node).__name__] *)
Definition type_name (node : AST) : string :=
  match node with
  | BinOp _ _ _ => "BinOp"
  | Num _ => "Num"
  | PyNone => "NoneType"
  end.

(** ** class Parser *)

Module Parser.

Record t : Type := mk { lexer : Lexer.t; current_token : Token }.

(** [__init__] *)
Definition init (lexer : Lexer.t) : result t :=
  let '(r, lexer') := Lexer.get_next_token lexer in
  tok <- r ;; Ok (mk lexer' tok).

Definition error {A : Type} : result A := Raise ParsingError.

Definition eat (p : t) (token_type : TokenType) : result t :=
  if TokenType_eqb (type (current_token p)) token_type then
    let '(r, lexer') := Lexer.get_next_token (lexer p) in
    tok <- r ;; Ok (mk lexer' tok)
  else error.

Definition is_mul_div (ty : TokenType) : bool :=
  TokenType_eqb ty MUL || TokenType_eqb ty DIV.

Definition is_plus_minus (ty : TokenType) : bool :=
  TokenType_eqb ty PLUS || TokenType_eqb ty MINUS.

(** [factor], [term], [expr] and the two [while] loops, each call and each
    loop iteration taking one unit of the counter. *)
Fixpoint factor_n (n : nat) (p : t) : result (AST * t) :=
  match n with
  | O => Raise FuelExhausted
  | S n' =>
    let token := current_token p in
    if TokenType_eqb (type token) INTEGER then
      p1 <- eat p INTEGER ;;
      Ok (Num token, p1)
    else if TokenType_eqb (type token) LPAREN then
      p1 <- eat p LPAREN ;;
      '(node, p2) <- expr_n n' p1 ;;
      p3 <- eat p2 RPAREN ;;
      Ok (node, p3)
    else Ok (PyNone, p)
  end

with term_n (n : nat) (p : t) : result (AST * t) :=
  match n with
  | O => Raise FuelExhausted
  | S n' =>
    '(node, p1) <- factor_n n' p ;;
    term_loop n' node p1
  end

with term_loop (n : nat) (node : AST) (p : t) : result (AST * t) :=
  match n with
  | O => Raise FuelExhausted
  | S n' =>
    if is_mul_div (type (current_token p)) then
      let token := current_token p in
      p1 <- (if TokenType_eqb (type token) MUL then eat p MUL
             else if TokenType_eqb (type token) DIV then eat p DIV
             else Ok p) ;;
      '(right_, p2) <- factor_n n' p1 ;;
      term_loop n' (BinOp node token right_) p2
    else Ok (node, p)
  end

with expr_n (n : nat) (p : t) : result (AST * t) :=
  match n with
  | O => Raise FuelExhausted
  | S n' =>
    '(node, p1) <- term_n n' p ;;
    expr_loop n' node p1
  end

with expr_loop (n : nat) (node : AST) (p : t) : result (AST * t) :=
  match n with
  | O => Raise FuelExhausted
  | S n' =>
    if is_plus_minus (type (current_token p)) then
      let token := current_token p in
      p1 <- (if TokenType_eqb (type token) PLUS then eat p PLUS
             else if TokenType_eqb (type token) MINUS then eat p MINUS
             else Ok p) ;;
      '(right_, p2) <- term_n n' p1 ;;
      expr_loop n' (BinOp node token right_) p2
    else Ok (node, p)
  end.

(** What is left to consume: the characters the lexer has not passed,
    and the buffered token unless it is [EOF]. *)
Definition measure (p : t) : nat :=
  (Lexer.remaining (lexer p) +
   if TokenType_eqb (type (current_token p)) EOF then 0 else 1)%nat.

Definition fuel (p : t) : nat := (3 * measure p + 3)%nat.

Definition factor (p : t) : result (AST * t) := factor_n (fuel p) p.
Definition term (p : t) : result (AST * t) := term_n (fuel p) p.
Definition expr (p : t) : result (AST * t) := expr_n (fuel p) p.

Definition parse (p : t) : result (AST * t) :=
  '(node, p1) <- expr p ;;
  if negb (TokenType_eqb (type (current_token p1)) EOF) then error
  else Ok (node, p1).

End Parser.

(** ** class Interpreter *)

Module Interpreter.

Record t : Type := mk { parser : Parser.t }.

Definition generic_visit (node : AST) : result pyval :=
  Raise (GenericException ("visit_" ++ type_name node)).

(** [visit] dispatches on [type(node).__name__]: [visit_BinOp] and
    [visit_Num] are the two methods [getattr] finds, every other node goes
    to [generic_visit]. *)
Fixpoint visit (node : AST) : result pyval :=
  match node with
  | BinOp left_ op right_ =>
    (* visit_BinOp *)
    match type op with
    | PLUS => l <- visit left_ ;; r <- visit right_ ;; py_add l r
    | MINUS => l <- visit left_ ;; r <- visit right_ ;; py_sub l r
    | MUL => l <- visit left_ ;; r <- visit right_ ;; py_mul l r
    | DIV =>
      right_val <- visit right_ ;;
      if py_eq_zero right_val then Raise ZeroDivisionError
      else l <- visit left_ ;; py_truediv l right_val
    | _ => Ok VNone
    end
  | Num token =>
    (* visit_Num: node.value, set to token.value by Num.__init__ *)
    Ok (value token)
  | PyNone => generic_visit node
  end.

Definition interpret (i : t) : result pyval :=
  '(tree, _) <- Parser.parse (parser i) ;;
  visit tree.

End Interpreter.

(** The body of the [try] block of [main]: build the three objects on the
    text and call [interpret]. *)
Definition evaluate (text : string) : result pyval :=
  let lexer := Lexer.init text in
  parser <- Parser.init lexer ;;
  let interpreter := Interpreter.mk parser in
  Interpreter.interpret interpreter.


(** ** Notions used to state the properties *)

(** The loop of [integer] from a given pair of [result] and lexer. *)
Definition integer_run (rl : string * Lexer.t) : string * Lexer.t :=
  while (fun rl => Lexer.at_digit (snd rl)) Lexer.integer_step
        (Lexer.remaining (snd rl)) rl.

(** [l] is a later state of the lexer [l0]: same text, a position that did
    not move back, and the cursor invariant. *)
Definition later (l0 l : Lexer.t) : Prop :=
  Lexer.text l = Lexer.text l0 /\
  (Lexer.pos l0 <= Lexer.pos l)%nat /\
  Lexer.cursor_inv l.

(** The six characters that are tokens by themselves. *)
Definition is_symbol (c : ascii) : bool :=
  Ascii.eqb c "+" || Ascii.eqb c "-" || Ascii.eqb c "*" || Ascii.eqb c "/"
  || Ascii.eqb c "(" || Ascii.eqb c ")".

(** The lexer that has read [pre] and has [rest] before it. *)
Definition at_split (pre rest : string) : Lexer.t :=
  Lexer.mk (pre ++ rest) (String.length pre)
           (match rest with
            | EmptyString => None
            | String c _ => Some c
            end).

(** Every character of [s] satisfies [f]. *)
Fixpoint all_chars (f : ascii -> bool) (s : string) : bool :=
  match s with
  | EmptyString => true
  | String c s' => f c && all_chars f s'
  end.

(** The first character of [s], if any, does not satisfy [f]. *)
Definition not_starting (f : ascii -> bool) (s : string) : bool :=
  match s with
  | EmptyString => true
  | String c _ => negb (f c)
  end.

(** The tree that [Parser(Lexer(text)).parse()] returns. *)
Definition parse_text (text : string) : result AST :=
  parser <- Parser.init (Lexer.init text) ;;
  '(node, _) <- Parser.parse parser ;;
  Ok node.

(** The INTEGER token and the [Num] leaf of a given value. *)
Definition int_token (z : Z) : Token := mkToken INTEGER (VInt z).
Definition num (z : Z) : AST := Num (int_token z).

(** The two [while] loops of the parser, from a given node and state. *)
Definition term_while (node : AST) (p : Parser.t) : result (AST * Parser.t) :=
  Parser.term_loop (Parser.fuel p) node p.
Definition expr_while (node : AST) (p : Parser.t) : result (AST * Parser.t) :=
  Parser.expr_loop (Parser.fuel p) node p.

(** ** Further notions: digits, tokens, and lexers that have come to rest *)

(** One of the ten characters 0..9. *)
Definition is_ascii_digit (c : ascii) : bool :=
  let n := code c in ((48 <=? n) && (n <=? 57))%N.

(** The payload the lexer gives to a token of each type. *)
Definition token_ok (tok : Token) : Prop :=
  match type tok with
  | INTEGER => exists z, 0 <= z /\ value tok = VInt z
  | PLUS => value tok = VStr "+"
  | MINUS => value tok = VStr "-"
  | MUL => value tok = VStr "*"
  | DIV => value tok = VStr "/"
  | LPAREN => value tok = VStr "("
  | RPAREN => value tok = VStr ")"
  | EOF => value tok = VNone
  end.

(** A lexer on which [get_next_token] changes nothing any more: it answers
    [EOF], or raises the same [LexicalError], and stays where it is. *)
Definition settled (l : Lexer.t) : Prop :=
  Lexer.get_next_token l = (Ok (mkToken EOF VNone), l) \/
  exists c, Lexer.get_next_token l = (Raise (LexicalError c), l).

(** ** Further notions: what the parser keeps *)

(** A value that is a number. *)
Definition is_number (v : pyval) : bool :=
  match v with
  | VInt _ | VFloat _ => true
  | VStr _ | VNone => false
  end.

(** The trees the parser can build: every operator is one of the four
    operator tokens, every leaf holds an INTEGER token with its number, and
    [None] may stand for a missing operand. *)
Fixpoint tree_ok (t : AST) : Prop :=
  match t with
  | BinOp l op r =>
    Parser.is_plus_minus (type op) || Parser.is_mul_div (type op) = true /\
    tree_ok l /\ tree_ok r
  | Num tok => type tok = INTEGER /\ token_ok tok
  | PyNone => True
  end.

(** A parser on [text] between two steps: its buffered token is what
    [get_next_token] returned on a lexer of [text], and its lexer is what
    that call left. *)
Definition state_ok (text : string) (p : Parser.t) : Prop :=
  exists l0,
    later (Lexer.init text) l0 /\
    Lexer.get_next_token l0 = (Ok (Parser.current_token p), Parser.lexer p).

(** The exceptions that can leave the parser. *)
Definition parser_raises (e : exception) : Prop :=
  (exists c, e = LexicalError c) \/ e = ValueError \/ e = ParsingError \/
  e = FuelExhausted.

Definition result_ok (text : string) (r : result (AST * Parser.t)) : Prop :=
  match r with
  | Ok (node, p) => tree_ok node /\ state_ok text p
  | Raise e => parser_raises e
  end.

(** The outcomes of [evaluate]. *)
Definition outcome_ok (r : result pyval) : Prop :=
  match r with
  | Ok v => is_number v = true
  | Raise e =>
    (exists c, e = LexicalError c) \/ e = ParsingError \/ e = ZeroDivisionError \/
    e = ValueError \/ e = OverflowError \/ e = GenericException "visit_NoneType"
  end.

(** The outcomes of [visit] on such a tree. *)
Definition visit_ok (r : result pyval) : Prop :=
  match r with
  | Ok v => is_number v = true
  | Raise e =>
    e = ZeroDivisionError \/ e = OverflowError \/
    e = GenericException "visit_NoneType"
  end.


(** ** The grammar of the parser, as derivations

    [expr := term (("+" | "-") term)*], [term := factor (("*" | "/") factor)*],
    [factor := INTEGER | "(" expr ")"], the repetitions taken from the left,
    with the text that may stand before each token and the digits of each
    INTEGER. *)

Inductive addop : Type := Plus | Minus.
Inductive mulop : Type := Times | Over.

Inductive Expr : Type :=
| E_term (t : Term)
| E_bin (e : Expr) (ws : string) (o : addop) (t : Term)
with Term : Type :=
| T_factor (f : Factor)
| T_bin (t : Term) (ws : string) (o : mulop) (f : Factor)
with Factor : Type :=
| F_int (ws : string) (d : Decimal.uint)
| F_paren (ws1 : string) (e : Expr) (ws2 : string).

Scheme Expr_mut := Induction for Expr Sort Prop
  with Term_mut := Induction for Term Sort Prop
  with Factor_mut := Induction for Factor Sort Prop.
Combined Scheme grammar_mut from Expr_mut, Term_mut, Factor_mut.

Definition addop_char (o : addop) : ascii :=
  match o with Plus => "+" | Minus => "-" end.
Definition mulop_char (o : mulop) : ascii :=
  match o with Times => "*" | Over => "/" end.

Definition addop_token (o : addop) : Token :=
  match o with
  | Plus => mkToken PLUS (VStr "+")
  | Minus => mkToken MINUS (VStr "-")
  end.
Definition mulop_token (o : mulop) : Token :=
  match o with
  | Times => mkToken MUL (VStr "*")
  | Over => mkToken DIV (VStr "/")
  end.

(** The text of a derivation. *)
Fixpoint show_expr (e : Expr) : string :=
  match e with
  | E_term t => show_term t
  | E_bin e ws o t => show_expr e ++ ws ++ String (addop_char o) (show_term t)
  end
with show_term (t : Term) : string :=
  match t with
  | T_factor f => show_factor f
  | T_bin t ws o f => show_term t ++ ws ++ String (mulop_char o) (show_factor f)
  end
with show_factor (f : Factor) : string :=
  match f with
  | F_int ws d => ws ++ NilEmpty.string_of_uint d
  | F_paren ws1 e ws2 => ws1 ++ String "(" (show_expr e ++ ws2 ++ ")")
  end.

(** The tree of a derivation: operators nest to the left, parentheses
    leave no node. *)
Fixpoint tree_expr (e : Expr) : AST :=
  match e with
  | E_term t => tree_term t
  | E_bin e _ o t => BinOp (tree_expr e) (addop_token o) (tree_term t)
  end
with tree_term (t : Term) : AST :=
  match t with
  | T_factor f => tree_factor f
  | T_bin t _ o f => BinOp (tree_term t) (mulop_token o) (tree_factor f)
  end
with tree_factor (f : Factor) : AST :=
  match f with
  | F_int _ d => num (Z.of_N (N.of_uint d))
  | F_paren _ e _ => tree_expr e
  end.

(** The text before a token is whitespace, and an INTEGER has a digit. *)
Fixpoint wf_expr (e : Expr) : bool :=
  match e with
  | E_term t => wf_term t
  | E_bin e ws _ t => wf_expr e && all_chars isspace ws && wf_term t
  end
with wf_term (t : Term) : bool :=
  match t with
  | T_factor f => wf_factor f
  | T_bin t ws _ f => wf_term t && all_chars isspace ws && wf_factor f
  end
with wf_factor (f : Factor) : bool :=
  match f with
  | F_int ws d =>
    all_chars isspace ws && match d with Decimal.Nil => false | _ => true end
  | F_paren ws1 e ws2 =>
    all_chars isspace ws1 && wf_expr e && all_chars isspace ws2
  end.

(** The same derivation without any whitespace. *)
Fixpoint strip_expr (e : Expr) : Expr :=
  match e with
  | E_term t => E_term (strip_term t)
  | E_bin e _ o t => E_bin (strip_expr e) "" o (strip_term t)
  end
with strip_term (t : Term) : Term :=
  match t with
  | T_factor f => T_factor (strip_factor f)
  | T_bin t _ o f => T_bin (strip_term t) "" o (strip_factor f)
  end
with strip_factor (f : Factor) : Factor :=
  match f with
  | F_int _ d => F_int "" d
  | F_paren _ e _ => F_paren "" (strip_expr e) ""
  end.

(** The value of a derivation without division, in integer arithmetic;
    [None] when it divides. *)
Fixpoint int_expr (e : Expr) : option Z :=
  match e with
  | E_term t => int_term t
  | E_bin e _ o t =>
    match int_expr e, int_term t with
    | Some a, Some b => Some (match o with Plus => a + b | Minus => a - b end)
    | _, _ => None
    end
  end
with int_term (t : Term) : option Z :=
  match t with
  | T_factor f => int_factor f
  | T_bin t _ o f =>
    match o, int_term t, int_factor f with
    | Times, Some a, Some b => Some (a * b)
    | _, _, _ => None
    end
  end
with int_factor (f : Factor) : option Z :=
  match f with
  | F_int _ d => Some (Z.of_N (N.of_uint d))
  | F_paren _ e _ => int_expr e
  end.


(** ** The loop of [main]

    Standard input is the list of the lines still to be read; [input()]
    returns the first of them, and raises [EOFError] when there is none.
    What [main] prints is recorded as a value of [printed], not as text:
    the format of a number on the screen is not modelled. *)

(** [str.lower] on one character (code points below 256). *)
Definition lower_char (c : ascii) : ascii :=
  let n := code c in
  if ((65 <=? n) && (n <=? 90) || (192 <=? n) && (n <=? 214)
      || (216 <=? n) && (n <=? 222))%N
  then ascii_of_N (n + 32) else c.

Fixpoint lower (s : string) : string :=
  match s with
  | EmptyString => EmptyString
  | String c s' => String (lower_char c) (lower s')
  end.

Inductive printed : Type :=
| Printed_exit                      (* the farewell line, before [break] *)
| Printed_result (result : pyval)   (* the result line *)
| Printed_error (e : exception)     (* the error line, for an exception of the pipeline *)
| Printed_eof_error.                (* the error line, for the EOFError of input() *)

(** What the body of the loop prints for a line that is not the exit
    command. *)
Definition answer (text : string) : printed :=
  match evaluate text with
  | Ok result => Printed_result result
  | Raise e => Printed_error e
  end.

Definition is_exit (text : string) : bool := String.eqb (lower text) "exit".

(** One pass through the body of [while True]: what is printed, and the
    lines left, or [None] after [break]. *)
Definition main_iteration (stdin : list string) : printed * option (list string) :=
  match stdin with
  | [] => (Printed_eof_error, Some [])
  | text :: stdin' =>
    if is_exit text then (Printed_exit, None)
    else (answer text, Some stdin')
  end.

(** At most [n] passes: everything printed, and the lines left, or [None]
    when the loop was left. *)
Fixpoint main_run (n : nat) (stdin : list string) : list printed * option (list string) :=
  match n with
  | O => ([], Some stdin)
  | S n' =>
    let '(out, st) := main_iteration stdin in
    match st with
    | None => ([out], None)
    | Some stdin' =>
      let '(outs, st') := main_run n' stdin' in (out :: outs, st')
    end
  end.

(** ** The quotient of two integers as a binary64 number

    Python's [a / b] on two [int]s is the binary64 number nearest to the
    exact quotient, a tie going to the even mantissa, and it raises
    [OverflowError] when that number is not finite.  The notions below say
    what "nearest" means, in integers and without reference to
    [int_truediv]. *)







(** ** The sizes CPython's default limits allow

    The model nests calls without bound and converts a numeral of any
    length.  CPython raises [RecursionError] beyond 1000 nested calls, and
    [int] raises [ValueError] on more than 4300 digits.  The parser nests
    three calls ([factor], [expr], [term]) for each parenthesis that is
    open, and [visit] two ([visit], [visit_BinOp]) for each operator of a
    chain, so a text with at most 100 opening parentheses, at most 200
    operators and at most 4300 characters reaches neither limit.  The
    properties that promise a result, or a complete list of outcomes, are
    stated for such texts. *)
Fixpoint count (f : ascii -> bool) (s : string) : nat :=
  match s with
  | EmptyString => 0%nat
  | String c s' => ((if f c then 1 else 0) + count f s')%nat
  end.

Definition is_operator (c : ascii) : bool :=
  Ascii.eqb c "+" || Ascii.eqb c "-" || Ascii.eqb c "*" || Ascii.eqb c "/".

Definition within_limits (text : string) : bool :=
  (count (Ascii.eqb "(") text <=? 100)%nat &&
  (count is_operator text <=? 200)%nat &&
  (String.length text <=? 4300)%nat.

(** * Properties *)

(** ** Loops *)

Section WhileFacts.

Context {St : Type} (cond : St -> bool) (body : St -> St).

Lemma while_invariant (P : St -> Prop) :
  (forall s, cond s = true -> P s -> P (body s)) ->
  forall fuel s, P s -> P (while cond body fuel s).
Proof.
  intros Hstep fuel; induction fuel as [|fuel IH]; intros s Hs; simpl; auto.
  destruct (cond s) eqn:Hc; auto.
Qed.

Variable mu : St -> nat.
Hypothesis mu_decr : forall s, cond s = true -> (mu (body s) < mu s)%nat.

Lemma while_exit fuel s :
  (mu s <= fuel)%nat -> cond (while cond body fuel s) = false.
Proof.
  revert s; induction fuel as [|fuel IH]; intros s Hle; simpl.
  - destruct (cond s) eqn:Hc; auto. apply mu_decr in Hc. lia.
  - destruct (cond s) eqn:Hc; auto. apply IH. apply mu_decr in Hc. lia.
Qed.

Lemma while_fuel f1 f2 s :
  (mu s <= f1)%nat -> (mu s <= f2)%nat ->
  while cond body f1 s = while cond body f2 s.
Proof.
  revert f2 s; induction f1 as [|f1 IH]; intros f2 s H1 H2.
  - destruct f2; simpl; auto.
    destruct (cond s) eqn:Hc; auto. apply mu_decr in Hc. lia.
  - destruct f2; simpl; destruct (cond s) eqn:Hc; auto.
    + apply mu_decr in Hc. lia.
    + apply mu_decr in Hc. apply IH; lia.
Qed.

Lemma while_unfold fuel s :
  (mu s <= fuel)%nat ->
  while cond body fuel s =
  if cond s then while cond body (mu (body s)) (body s) else s.
Proof.
  intros Hle. destruct fuel; simpl; destruct (cond s) eqn:Hc; auto.
  - apply mu_decr in Hc. lia.
  - apply mu_decr in Hc. apply while_fuel; lia.
Qed.

Lemma while_mu fuel s : (mu (while cond body fuel s) <= mu s)%nat.
Proof.
  revert s; induction fuel as [|fuel IH]; intros s; simpl; auto.
  destruct (cond s) eqn:Hc; auto.
  specialize (IH (body s)). apply mu_decr in Hc. lia.
Qed.

Lemma while_mu_strict fuel s :
  cond s = true -> (mu (while cond body (S fuel) s) < mu s)%nat.
Proof.
  intros Hc. simpl. rewrite Hc.
  pose proof (while_mu fuel (body s)). apply mu_decr in Hc. lia.
Qed.

End WhileFacts.

(** ** Strings *)

Lemma get_some_lt (s : string) (n : nat) (c : ascii) :
  String.get n s = Some c -> (n < String.length s)%nat.
Proof.
  revert n; induction s as [|a s IH]; intros n H; simpl in *.
  - destruct n; discriminate.
  - destruct n; [lia|]. apply IH in H. lia.
Qed.

Lemma get_app_length (pre rest : string) :
  String.get (String.length pre) (pre ++ rest) =
  match rest with
  | EmptyString => None
  | String c _ => Some c
  end.
Proof.
  induction pre as [|a pre IH]; simpl.
  - destruct rest; reflexivity.
  - exact IH.
Qed.

Lemma length_app (s1 s2 : string) :
  String.length (s1 ++ s2) = (String.length s1 + String.length s2)%nat.
Proof. induction s1; simpl; auto. Qed.

Lemma app_assoc_str (s1 s2 s3 : string) : (s1 ++ s2) ++ s3 = s1 ++ (s2 ++ s3).
Proof. induction s1; simpl; congruence. Qed.

Lemma app_empty_r (s : string) : s ++ "" = s.
Proof. induction s; simpl; congruence. Qed.

(** ** The lexer's cursor *)

Lemma remaining_advance (l : Lexer.t) :
  Lexer.current_char l <> None ->
  (Lexer.remaining (Lexer.advance l) < Lexer.remaining l)%nat.
Proof.
  intros Hc. unfold Lexer.remaining at 2.
  destruct (Lexer.current_char l); [|congruence].
  unfold Lexer.remaining, Lexer.advance; simpl.
  destruct (Nat.ltb_spec (Lexer.pos l + 1) (String.length (Lexer.text l))).
  - destruct (String.get _ _); lia.
  - lia.
Qed.

Lemma at_space_decr (l : Lexer.t) :
  Lexer.at_space l = true ->
  (Lexer.remaining (Lexer.advance l) < Lexer.remaining l)%nat.
Proof.
  unfold Lexer.at_space. intros H. apply remaining_advance.
  destruct (Lexer.current_char l); congruence.
Qed.

Lemma at_digit_decr (rl : string * Lexer.t) :
  Lexer.at_digit (snd rl) = true ->
  (Lexer.remaining (snd (Lexer.integer_step rl)) < Lexer.remaining (snd rl))%nat.
Proof.
  destruct rl as [r l]; simpl. unfold Lexer.at_digit. intros H.
  apply remaining_advance. destruct (Lexer.current_char l); congruence.
Qed.

(** The loop of [skip_whitespace], free of its counter. *)
Lemma skip_whitespace_eq (l : Lexer.t) :
  Lexer.skip_whitespace l =
  if Lexer.at_space l then Lexer.skip_whitespace (Lexer.advance l) else l.
Proof.
  unfold Lexer.skip_whitespace.
  rewrite (while_unfold _ _ Lexer.remaining at_space_decr) by lia.
  reflexivity.
Qed.

Lemma skip_whitespace_exit (l : Lexer.t) :
  Lexer.at_space (Lexer.skip_whitespace l) = false.
Proof.
  unfold Lexer.skip_whitespace.
  apply (while_exit _ _ Lexer.remaining at_space_decr). lia.
Qed.

Lemma skip_whitespace_remaining (l : Lexer.t) :
  (Lexer.remaining (Lexer.skip_whitespace l) <= Lexer.remaining l)%nat.
Proof.
  unfold Lexer.skip_whitespace.
  apply (while_mu _ _ Lexer.remaining at_space_decr).
Qed.

Lemma integer_run_eq (rl : string * Lexer.t) :
  integer_run rl =
  if Lexer.at_digit (snd rl) then integer_run (Lexer.integer_step rl) else rl.
Proof.
  unfold integer_run.
  rewrite (while_unfold _ _ (fun rl => Lexer.remaining (snd rl)) at_digit_decr) by lia.
  reflexivity.
Qed.

Lemma integer_eq (l : Lexer.t) :
  Lexer.integer l =
  (int_of_digits (fst (integer_run ("", l))), snd (integer_run ("", l))).
Proof.
  unfold Lexer.integer, integer_run; simpl.
  destruct (while _ _ _ _); reflexivity.
Qed.

Lemma later_refl (l : Lexer.t) : Lexer.cursor_inv l -> later l l.
Proof. unfold later; auto. Qed.

Lemma later_trans (l0 l1 l2 : Lexer.t) : later l0 l1 -> later l1 l2 -> later l0 l2.
Proof.
  unfold later. intros (Ht1 & Hp1 & _) (Ht2 & Hp2 & Hi). repeat split.
  - congruence.
  - lia.
  - apply Hi.
  - apply Hi.
Qed.

Lemma cursor_inv_init (text : string) : Lexer.cursor_inv (Lexer.init text).
Proof.
  unfold Lexer.cursor_inv, Lexer.init; simpl. split; [lia|].
  destruct text; reflexivity.
Qed.

Lemma cursor_some_lt (l : Lexer.t) (c : ascii) :
  Lexer.cursor_inv l -> Lexer.current_char l = Some c ->
  (Lexer.pos l < String.length (Lexer.text l))%nat /\
  String.get (Lexer.pos l) (Lexer.text l) = Some c.
Proof.
  intros [_ Hc] Hs. rewrite Hs in Hc.
  destruct (Nat.ltb_spec (Lexer.pos l) (String.length (Lexer.text l)));
    [auto | discriminate].
Qed.

Lemma later_advance (l : Lexer.t) :
  Lexer.cursor_inv l -> Lexer.current_char l <> None -> later l (Lexer.advance l).
Proof.
  intros Hinv Hc. destruct (Lexer.current_char l) as [c|] eqn:Ec; [|congruence].
  destruct (cursor_some_lt l c Hinv Ec) as [Hlt _].
  unfold later, Lexer.cursor_inv, Lexer.advance; simpl.
  repeat split; lia.
Qed.

Lemma later_skip_whitespace (l : Lexer.t) :
  Lexer.cursor_inv l -> later l (Lexer.skip_whitespace l).
Proof.
  intros Hinv. unfold Lexer.skip_whitespace.
  apply (while_invariant Lexer.at_space Lexer.advance (later l)).
  - intros s Hs Hl. apply (later_trans l s); auto.
    apply later_advance; [apply Hl|].
    unfold Lexer.at_space in Hs. destruct (Lexer.current_char s); congruence.
  - apply later_refl; auto.
Qed.

Lemma later_integer_run (r : string) (l : Lexer.t) :
  Lexer.cursor_inv l -> later l (snd (integer_run (r, l))).
Proof.
  intros Hinv. unfold integer_run.
  apply (while_invariant (fun rl => Lexer.at_digit (snd rl)) Lexer.integer_step
                         (fun rl => later l (snd rl))).
  - intros [r' s] Hs Hl; simpl in *. apply (later_trans l s); auto.
    apply later_advance; [apply Hl|].
    unfold Lexer.at_digit in Hs. destruct (Lexer.current_char s); congruence.
  - apply later_refl; auto.
Qed.

Lemma integer_run_remaining (r : string) (l : Lexer.t) :
  Lexer.at_digit l = true ->
  (Lexer.remaining (snd (integer_run (r, l))) < Lexer.remaining l)%nat.
Proof.
  intros Hd. unfold integer_run; simpl.
  assert (Hpos : exists n, Lexer.remaining l = S n).
  { unfold Lexer.at_digit in Hd. unfold Lexer.remaining.
    destruct (Lexer.current_char l); [eauto | discriminate]. }
  destruct Hpos as [n Hn].
  pose proof (while_mu_strict _ _ (fun rl => Lexer.remaining (snd rl))
                              at_digit_decr n (r, l) Hd) as Hlt.
  rewrite <- Hn in Hlt. exact Hlt.
Qed.

(** ** [get_next_token] *)

Lemma get_next_token_loop_nospace (l : Lexer.t) (f f' : nat) :
  Lexer.at_space l = false ->
  Lexer.get_next_token_loop f l = Lexer.get_next_token_loop f' l.
Proof.
  unfold Lexer.at_space. intros H.
  destruct f, f'; simpl; destruct (Lexer.current_char l); try rewrite H; reflexivity.
Qed.

Lemma get_next_token_loop_space (l : Lexer.t) (f : nat) :
  Lexer.at_space l = true ->
  Lexer.get_next_token_loop (S f) l =
  Lexer.get_next_token_loop f (Lexer.skip_whitespace l).
Proof.
  unfold Lexer.at_space. intros H. cbn [Lexer.get_next_token_loop].
  destruct (Lexer.current_char l); [rewrite H; reflexivity | discriminate].
Qed.

(** The whitespace branch of the loop: skip the run and go round again. *)
Lemma get_next_token_space (l : Lexer.t) :
  Lexer.at_space l = true ->
  Lexer.get_next_token l = Lexer.get_next_token (Lexer.skip_whitespace l).
Proof.
  intros H. unfold Lexer.get_next_token.
  assert (Hk : exists k, Lexer.remaining l = S k).
  { unfold Lexer.at_space in H. unfold Lexer.remaining.
    destruct (Lexer.current_char l); [eauto | discriminate]. }
  destruct Hk as [k ->].
  rewrite get_next_token_loop_space by assumption.
  apply get_next_token_loop_nospace, skip_whitespace_exit.
Qed.

(** The other branches: one pass through the loop body. *)
Lemma get_next_token_nospace (l : Lexer.t) :
  Lexer.at_space l = false ->
  Lexer.get_next_token l =
  match Lexer.current_char l with
  | None => (Ok (mkToken EOF VNone), l)
  | Some c =>
    if isdigit c then
      let '(r, l') := Lexer.integer l in
      (v <- r ;; Ok (mkToken INTEGER (VInt v)), l')
    else if Ascii.eqb c "+" then (Ok (mkToken PLUS (VStr "+")), Lexer.advance l)
    else if Ascii.eqb c "-" then (Ok (mkToken MINUS (VStr "-")), Lexer.advance l)
    else if Ascii.eqb c "*" then (Ok (mkToken MUL (VStr "*")), Lexer.advance l)
    else if Ascii.eqb c "/" then (Ok (mkToken DIV (VStr "/")), Lexer.advance l)
    else if Ascii.eqb c "(" then (Ok (mkToken LPAREN (VStr "(")), Lexer.advance l)
    else if Ascii.eqb c ")" then (Ok (mkToken RPAREN (VStr ")")), Lexer.advance l)
    else (Raise (LexicalError c), l)
  end.
Proof.
  intros H. unfold Lexer.get_next_token.
  rewrite (get_next_token_loop_nospace l _ 0 H).
  unfold Lexer.at_space in H. simpl.
  destruct (Lexer.current_char l); [rewrite H|]; reflexivity.
Qed.

(** Case analysis on what [get_next_token] does from a state that is not on
    whitespace. *)
Ltac gnt_cases l H :=
  rewrite (get_next_token_nospace l H);
  let c := fresh "c" in
  let Ec := fresh "Ec" in
  let Ed := fresh "Ed" in
  destruct (Lexer.current_char l) as [c|] eqn:Ec;
  [ destruct (isdigit c) eqn:Ed;
    [ rewrite integer_eq
    | destruct (Ascii.eqb c "+") eqn:?;
      [| destruct (Ascii.eqb c "-") eqn:?;
         [| destruct (Ascii.eqb c "*") eqn:?;
            [| destruct (Ascii.eqb c "/") eqn:?;
               [| destruct (Ascii.eqb c "(") eqn:?;
                  [| destruct (Ascii.eqb c ")") eqn:? ]]]]]]
  | ].

Lemma get_next_token_later_nospace (l : Lexer.t) :
  Lexer.at_space l = false -> Lexer.cursor_inv l ->
  later l (snd (Lexer.get_next_token l)).
Proof.
  intros H Hinv. gnt_cases l H; simpl;
    try (apply later_advance; [assumption | congruence]);
    try (apply later_refl; assumption).
  apply later_integer_run; assumption.
Qed.

Lemma get_next_token_later (l : Lexer.t) :
  Lexer.cursor_inv l -> later l (snd (Lexer.get_next_token l)).
Proof.
  intros Hinv. destruct (Lexer.at_space l) eqn:H.
  - rewrite get_next_token_space by assumption.
    pose proof (later_skip_whitespace l Hinv) as Hl.
    apply (later_trans _ _ _ Hl).
    apply get_next_token_later_nospace; [apply skip_whitespace_exit | apply Hl].
  - apply get_next_token_later_nospace; assumption.
Qed.

Lemma get_next_token_eof (l : Lexer.t) :
  Lexer.current_char l = None ->
  Lexer.get_next_token l = (Ok (mkToken EOF VNone), l).
Proof.
  intros H. rewrite get_next_token_nospace.
  - rewrite H. reflexivity.
  - unfold Lexer.at_space. rewrite H. reflexivity.
Qed.

Lemma int_of_digits_no_fuel (s : string) (k : Z -> result Token) :
  (forall v, k v <> Raise FuelExhausted) ->
  (v <- int_of_digits s ;; k v) <> Raise FuelExhausted.
Proof.
  intros Hk. unfold int_of_digits.
  destruct (NilZero.uint_of_string s); simpl; [apply Hk | discriminate].
Qed.

(** The counter of [get_next_token] is never used up. *)
Lemma get_next_token_total (l : Lexer.t) :
  fst (Lexer.get_next_token l) <> Raise FuelExhausted.
Proof.
  assert (Hns : forall l, Lexer.at_space l = false ->
                fst (Lexer.get_next_token l) <> Raise FuelExhausted).
  { clear l. intros l H. gnt_cases l H; simpl; try discriminate.
    apply int_of_digits_no_fuel. discriminate. }
  destruct (Lexer.at_space l) eqn:H.
  - rewrite get_next_token_space by assumption.
    apply Hns, skip_whitespace_exit.
  - apply Hns, H.
Qed.

(** A token other than [EOF] costs at least one character; [EOF] is only
    returned at the end of the text. *)
Lemma get_next_token_remaining (l l' : Lexer.t) (tok : Token) :
  Lexer.get_next_token l = (Ok tok, l') ->
  if TokenType_eqb (type tok) EOF
  then Lexer.remaining l' = O
  else (Lexer.remaining l' < Lexer.remaining l)%nat.
Proof.
  assert (Hns : forall l, Lexer.at_space l = false ->
                Lexer.get_next_token l = (Ok tok, l') ->
                if TokenType_eqb (type tok) EOF
                then Lexer.remaining l' = O
                else (Lexer.remaining l' < Lexer.remaining l)%nat).
  { clear l. intros l H. gnt_cases l H; intros Heq;
      try (injection Heq as <- <-; simpl; apply remaining_advance; congruence);
      try discriminate.
    - injection Heq as Hr <-.
      destruct (int_of_digits _); simpl in Hr; [|discriminate].
      injection Hr as <-. simpl.
      apply integer_run_remaining. unfold Lexer.at_digit. rewrite Ec. exact Ed.
    - injection Heq as <- <-. simpl. unfold Lexer.remaining. rewrite Ec.
      reflexivity. }
  intros Heq. destruct (Lexer.at_space l) eqn:H.
  - rewrite get_next_token_space in Heq by assumption.
    apply Hns in Heq; [|apply skip_whitespace_exit].
    pose proof (skip_whitespace_remaining l).
    destruct (TokenType_eqb (type tok) EOF); [assumption | lia].
  - apply Hns; assumption.
Qed.

Lemma is_symbol_false (c : ascii) :
  is_symbol c = false <->
  Ascii.eqb c "+" = false /\ Ascii.eqb c "-" = false /\ Ascii.eqb c "*" = false /\
  Ascii.eqb c "/" = false /\ Ascii.eqb c "(" = false /\ Ascii.eqb c ")" = false.
Proof.
  unfold is_symbol. repeat rewrite orb_false_iff. tauto.
Qed.

Lemma get_next_token_unknown (l : Lexer.t) (c : ascii) :
  Lexer.current_char l = Some c ->
  isspace c = false -> isdigit c = false -> is_symbol c = false ->
  Lexer.get_next_token l = (Raise (LexicalError c), l).
Proof.
  intros Hc Hs Hd Hy. apply is_symbol_false in Hy.
  destruct Hy as (H1 & H2 & H3 & H4 & H5 & H6).
  rewrite get_next_token_nospace.
  - rewrite Hc, Hd, H1, H2, H3, H4, H5, H6. reflexivity.
  - unfold Lexer.at_space. rewrite Hc. exact Hs.
Qed.

Lemma get_next_token_lexical_error (l l' : Lexer.t) (c : ascii) :
  Lexer.get_next_token l = (Raise (LexicalError c), l') ->
  l' = Lexer.skip_whitespace l /\ Lexer.current_char l' = Some c /\
  isspace c = false /\ isdigit c = false /\ is_symbol c = false.
Proof.
  assert (Hns : forall l, Lexer.at_space l = false ->
                Lexer.get_next_token l = (Raise (LexicalError c), l') ->
                l' = l /\ Lexer.current_char l' = Some c /\
                isspace c = false /\ isdigit c = false /\ is_symbol c = false).
  { clear l. intros l H. pose proof H as Hsp. unfold Lexer.at_space in Hsp.
    gnt_cases l H; intros Heq; try discriminate.
    - injection Heq as Hr _. unfold int_of_digits in Hr.
      destruct (NilZero.uint_of_string _); discriminate.
    - injection Heq as <- <-.
      repeat split; auto. apply is_symbol_false. auto 10. }
  intros Heq. destruct (Lexer.at_space l) eqn:H.
  - rewrite get_next_token_space in Heq by assumption.
    apply Hns in Heq; [|apply skip_whitespace_exit].
    destruct Heq as (-> & Heq). split; auto.
  - rewrite skip_whitespace_eq, H. apply Hns; assumption.
Qed.

Lemma after_pulls_add (n m : nat) (l : Lexer.t) :
  Lexer.after_pulls (n + m) l = Lexer.after_pulls m (Lexer.after_pulls n l).
Proof.
  revert l; induction n as [|n IH]; intros l; simpl; auto.
Qed.

Lemma after_pulls_later (n : nat) (l : Lexer.t) :
  Lexer.cursor_inv l -> later l (Lexer.after_pulls n l).
Proof.
  revert l; induction n as [|n IH]; intros l Hinv; simpl.
  - apply later_refl; assumption.
  - pose proof (get_next_token_later l Hinv) as Hl.
    apply (later_trans _ _ _ Hl). apply IH, Hl.
Qed.

Lemma after_pulls_eof (n : nat) (l : Lexer.t) :
  Lexer.current_char l = None -> Lexer.after_pulls n l = l.
Proof.
  intros H. induction n as [|n IH]; simpl; auto.
  rewrite get_next_token_eof by assumption. exact IH.
Qed.

(** ** The parser: consumption, and the counters of [factor], [term], [expr] *)

Lemma TokenType_eqb_eq (a b : TokenType) : TokenType_eqb a b = true <-> a = b.
Proof. split; [destruct a, b; simpl; congruence | intros ->; destruct b; reflexivity]. Qed.

Lemma eat_total (p : Parser.t) (ty : TokenType) :
  Parser.eat p ty <> Raise FuelExhausted.
Proof.
  unfold Parser.eat, Parser.error.
  destruct (TokenType_eqb _ _); [|discriminate].
  pose proof (get_next_token_total (Parser.lexer p)) as H.
  destruct (Lexer.get_next_token (Parser.lexer p)) as [[tok|e] l']; simpl in *;
    congruence.
Qed.

(** A successful [eat] of anything but [EOF] consumes. *)
Lemma eat_measure (p p' : Parser.t) (ty : TokenType) :
  Parser.eat p ty = Ok p' -> TokenType_eqb ty EOF = false ->
  (Parser.measure p' < Parser.measure p)%nat.
Proof.
  unfold Parser.eat, Parser.error. intros H Hty.
  destruct (TokenType_eqb (type (Parser.current_token p)) ty) eqn:Ecur;
    [|discriminate].
  apply TokenType_eqb_eq in Ecur.
  destruct (Lexer.get_next_token (Parser.lexer p)) as [[tok|e] l'] eqn:Eg;
    simpl in H; [|discriminate].
  injection H as <-. apply get_next_token_remaining in Eg.
  unfold Parser.measure; simpl. rewrite Ecur, Hty.
  destruct (TokenType_eqb (type tok) EOF); lia.
Qed.

(** One step through a [bind] in hypothesis [H]. *)
Ltac bind_inv H :=
  match type of H with
  | bind ?r _ = _ =>
    let a := fresh "a" in
    let E := fresh "E" in
    destruct r as [a|] eqn:E; cbn [bind] in H; [try destruct a as [? ?] | discriminate H]
  end.

Lemma parser_measure (n : nat) :
  (forall p node p', Parser.factor_n n p = Ok (node, p') ->
                     (Parser.measure p' <= Parser.measure p)%nat) /\
  (forall p node p', Parser.term_n n p = Ok (node, p') ->
                     (Parser.measure p' <= Parser.measure p)%nat) /\
  (forall node0 p node p', Parser.term_loop n node0 p = Ok (node, p') ->
                     (Parser.measure p' <= Parser.measure p)%nat) /\
  (forall p node p', Parser.expr_n n p = Ok (node, p') ->
                     (Parser.measure p' <= Parser.measure p)%nat) /\
  (forall node0 p node p', Parser.expr_loop n node0 p = Ok (node, p') ->
                     (Parser.measure p' <= Parser.measure p)%nat).
Proof.
  induction n as [|n (IHf & IHt & IHtl & IHe & IHel)].
  - repeat split; intros; discriminate.
  - repeat split.
    + intros p node p' H. cbn [Parser.factor_n] in H.
      destruct (TokenType_eqb (type (Parser.current_token p)) INTEGER).
      * bind_inv H. injection H as _ <-. apply eat_measure in E; [lia | reflexivity].
      * destruct (TokenType_eqb (type (Parser.current_token p)) LPAREN).
        -- bind_inv H. bind_inv H. bind_inv H. injection H as _ <-.
           apply eat_measure in E; [|reflexivity].
           apply IHe in E0. apply eat_measure in E1; [lia | reflexivity].
        -- injection H as _ <-. lia.
    + intros p node p' H. cbn [Parser.term_n] in H. bind_inv H.
      apply IHf in E. apply IHtl in H. lia.
    + intros node0 p node p' H. cbn [Parser.term_loop] in H.
      destruct (Parser.is_mul_div (type (Parser.current_token p))) eqn:Em.
      * unfold Parser.is_mul_div in Em.
        destruct (TokenType_eqb (type (Parser.current_token p)) MUL) eqn:E1.
        -- bind_inv H. bind_inv H. apply eat_measure in E; [|reflexivity].
           apply IHf in E0. apply IHtl in H. lia.
        -- simpl in Em. rewrite Em in H. bind_inv H. bind_inv H.
           apply eat_measure in E; [|reflexivity].
           apply IHf in E0. apply IHtl in H. lia.
      * injection H as _ <-. lia.
    + intros p node p' H. cbn [Parser.expr_n] in H. bind_inv H.
      apply IHt in E. apply IHel in H. lia.
    + intros node0 p node p' H. cbn [Parser.expr_loop] in H.
      destruct (Parser.is_plus_minus (type (Parser.current_token p))) eqn:Em.
      * unfold Parser.is_plus_minus in Em.
        destruct (TokenType_eqb (type (Parser.current_token p)) PLUS) eqn:E1.
        -- bind_inv H. bind_inv H. apply eat_measure in E; [|reflexivity].
           apply IHt in E0. apply IHel in H. lia.
        -- simpl in Em. rewrite Em in H. bind_inv H. bind_inv H.
           apply eat_measure in E; [|reflexivity].
           apply IHt in E0. apply IHel in H. lia.
      * injection H as _ <-. lia.
Qed.

Lemma bind_total {A B : Type} (r : result A) (k : A -> result B) :
  r <> Raise FuelExhausted ->
  (forall a, r = Ok a -> k a <> Raise FuelExhausted) ->
  bind r k <> Raise FuelExhausted.
Proof.
  destruct r as [a|e]; simpl; intros Hr Hk; [apply Hk; reflexivity | congruence].
Qed.

Lemma bind_fuel {A B : Type} (r r' : result A) (k k' : A -> result B) :
  (r <> Raise FuelExhausted -> r' = r) ->
  (forall a, r = Ok a -> k a <> Raise FuelExhausted -> k' a = k a) ->
  bind r k <> Raise FuelExhausted -> bind r' k' = bind r k.
Proof.
  destruct r as [a|e]; simpl; intros Hr Hk H.
  - rewrite Hr by discriminate. simpl. apply Hk; [reflexivity | exact H].
  - rewrite Hr; [reflexivity | congruence].
Qed.

(** The counters are large enough: with [3 * measure + 3] units ([+ 2] and
    [+ 1] for the inner functions) nothing in the parser runs out. *)
Lemma parser_fuel_enough (n : nat) :
  (forall p, (3 * Parser.measure p + 1 <= n)%nat ->
             Parser.factor_n n p <> Raise FuelExhausted) /\
  (forall p, (3 * Parser.measure p + 2 <= n)%nat ->
             Parser.term_n n p <> Raise FuelExhausted) /\
  (forall node p, (3 * Parser.measure p + 1 <= n)%nat ->
             Parser.term_loop n node p <> Raise FuelExhausted) /\
  (forall p, (3 * Parser.measure p + 3 <= n)%nat ->
             Parser.expr_n n p <> Raise FuelExhausted) /\
  (forall node p, (3 * Parser.measure p + 1 <= n)%nat ->
             Parser.expr_loop n node p <> Raise FuelExhausted).
Proof.
  induction n as [|n (IHf & IHt & IHtl & IHe & IHel)].
  - repeat split; intros; lia.
  - destruct (parser_measure n) as (Mf & Mt & Mtl & Me & Mel).
    repeat split.
    + intros p Hn. cbn [Parser.factor_n].
      destruct (TokenType_eqb (type (Parser.current_token p)) INTEGER).
      * apply bind_total; [apply eat_total | discriminate].
      * destruct (TokenType_eqb (type (Parser.current_token p)) LPAREN);
          [|discriminate].
        apply bind_total; [apply eat_total | intros p1 E1].
        apply eat_measure in E1; [|reflexivity].
        apply bind_total; [apply IHe; lia | intros [node p2] E2].
        apply bind_total; [apply eat_total | discriminate].
    + intros p Hn. cbn [Parser.term_n].
      apply bind_total; [apply IHf; lia | intros [node p1] E1].
      apply Mf in E1. apply IHtl. lia.
    + intros node p Hn. cbn [Parser.term_loop].
      destruct (Parser.is_mul_div (type (Parser.current_token p))) eqn:Em;
        [|discriminate].
      unfold Parser.is_mul_div in Em.
      assert (Hloop : forall p1, (Parser.measure p1 < Parser.measure p)%nat ->
                bind (Parser.factor_n n p1)
                     (fun '(right_, p2) =>
                        Parser.term_loop n
                          (BinOp node (Parser.current_token p) right_) p2)
                <> Raise FuelExhausted).
      { intros p1 Hlt. apply bind_total; [apply IHf; lia | intros [r p2] E2].
        apply Mf in E2. apply IHtl. lia. }
      destruct (TokenType_eqb (type (Parser.current_token p)) MUL) eqn:E1.
      * apply bind_total; [apply eat_total | intros p1 E].
        apply eat_measure in E; [auto | reflexivity].
      * simpl in Em. rewrite Em.
        apply bind_total; [apply eat_total | intros p1 E].
        apply eat_measure in E; [auto | reflexivity].
    + intros p Hn. cbn [Parser.expr_n].
      apply bind_total; [apply IHt; lia | intros [node p1] E1].
      apply Mt in E1. apply IHel. lia.
    + intros node p Hn. cbn [Parser.expr_loop].
      destruct (Parser.is_plus_minus (type (Parser.current_token p))) eqn:Em;
        [|discriminate].
      unfold Parser.is_plus_minus in Em.
      assert (Hloop : forall p1, (Parser.measure p1 < Parser.measure p)%nat ->
                bind (Parser.term_n n p1)
                     (fun '(right_, p2) =>
                        Parser.expr_loop n
                          (BinOp node (Parser.current_token p) right_) p2)
                <> Raise FuelExhausted).
      { intros p1 Hlt. apply bind_total; [apply IHt; lia | intros [r p2] E2].
        apply Mt in E2. apply IHel. lia. }
      destruct (TokenType_eqb (type (Parser.current_token p)) PLUS) eqn:E1.
      * apply bind_total; [apply eat_total | intros p1 E].
        apply eat_measure in E; [auto | reflexivity].
      * simpl in Em. rewrite Em.
        apply bind_total; [apply eat_total | intros p1 E].
        apply eat_measure in E; [auto | reflexivity].
Qed.

(** A counter that sufficed still gives the same outcome when raised. *)
Lemma parser_fuel_succ (n : nat) :
  (forall p, Parser.factor_n n p <> Raise FuelExhausted ->
             Parser.factor_n (S n) p = Parser.factor_n n p) /\
  (forall p, Parser.term_n n p <> Raise FuelExhausted ->
             Parser.term_n (S n) p = Parser.term_n n p) /\
  (forall node p, Parser.term_loop n node p <> Raise FuelExhausted ->
             Parser.term_loop (S n) node p = Parser.term_loop n node p) /\
  (forall p, Parser.expr_n n p <> Raise FuelExhausted ->
             Parser.expr_n (S n) p = Parser.expr_n n p) /\
  (forall node p, Parser.expr_loop n node p <> Raise FuelExhausted ->
             Parser.expr_loop (S n) node p = Parser.expr_loop n node p).
Proof.
  induction n as [|n (IHf & IHt & IHtl & IHe & IHel)].
  - repeat split; intros; simpl in *; congruence.
  - repeat split.
    + intros p. cbn [Parser.factor_n].
      destruct (TokenType_eqb (type (Parser.current_token p)) INTEGER); auto.
      destruct (TokenType_eqb (type (Parser.current_token p)) LPAREN); auto.
      apply bind_fuel; [auto | intros p1 _].
      apply bind_fuel; [apply IHe | intros [node p2] _; auto].
    + intros p. cbn [Parser.term_n].
      apply bind_fuel; [apply IHf | intros [node p1] _; apply IHtl].
    + intros node p. cbn [Parser.term_loop].
      destruct (Parser.is_mul_div (type (Parser.current_token p))); auto.
      apply bind_fuel; [auto | intros p1 _].
      apply bind_fuel; [apply IHf | intros [r p2] _; apply IHtl].
    + intros p. cbn [Parser.expr_n].
      apply bind_fuel; [apply IHt | intros [node p1] _; apply IHel].
    + intros node p. cbn [Parser.expr_loop].
      destruct (Parser.is_plus_minus (type (Parser.current_token p))); auto.
      apply bind_fuel; [auto | intros p1 _].
      apply bind_fuel; [apply IHt | intros [r p2] _; apply IHel].
Qed.

Lemma expr_n_fuel_le (n m : nat) (p : Parser.t) :
  (n <= m)%nat -> Parser.expr_n n p <> Raise FuelExhausted ->
  Parser.expr_n m p = Parser.expr_n n p.
Proof.
  induction 1 as [|m Hle IH]; intros H; auto.
  destruct (parser_fuel_succ m) as (_ & _ & _ & He & _).
  rewrite He; rewrite IH; auto.
Qed.

(** The outcome of [expr] does not depend on the counter: any counter that
    is not used up gives what [Parser.expr] gives. *)
Lemma expr_n_expr (n : nat) (p : Parser.t) :
  Parser.expr_n n p <> Raise FuelExhausted ->
  Parser.expr p = Parser.expr_n n p.
Proof.
  intros H. unfold Parser.expr.
  destruct (Nat.le_ge_cases n (Parser.fuel p)) as [Hle|Hge].
  - apply expr_n_fuel_le; assumption.
  - symmetry. apply expr_n_fuel_le; [assumption|].
    apply (parser_fuel_enough (Parser.fuel p)). unfold Parser.fuel. lia.
Qed.

Lemma expr_total (p : Parser.t) : Parser.expr p <> Raise FuelExhausted.
Proof.
  unfold Parser.expr. apply (parser_fuel_enough (Parser.fuel p)).
  unfold Parser.fuel. lia.
Qed.

Lemma parse_total (p : Parser.t) : Parser.parse p <> Raise FuelExhausted.
Proof.
  unfold Parser.parse, Parser.error.
  apply bind_total; [apply expr_total | intros [node p1] _].
  destruct (negb _); discriminate.
Qed.

(** ** The lexer on a text given by what is read and what is ahead *)

Lemma at_split_init (text : string) : Lexer.init text = at_split "" text.
Proof. destruct text; reflexivity. Qed.

Lemma at_split_inv (pre rest : string) : Lexer.cursor_inv (at_split pre rest).
Proof.
  unfold Lexer.cursor_inv, at_split; simpl. rewrite length_app. split; [lia|].
  rewrite get_app_length. destruct rest; simpl.
  - destruct (Nat.ltb_spec (String.length pre) (String.length pre + 0)); [lia | reflexivity].
  - destruct (Nat.ltb_spec (String.length pre)
                           (String.length pre + S (String.length rest)));
      [reflexivity | lia].
Qed.

Lemma advance_split (pre rest : string) (c : ascii) :
  Lexer.advance (at_split pre (String c rest)) = at_split (pre ++ String c "") rest.
Proof.
  unfold Lexer.advance, at_split.
  cbn [Lexer.text Lexer.pos Lexer.current_char].
  assert (Ht : pre ++ String c rest = (pre ++ String c "") ++ rest)
    by (rewrite app_assoc_str; reflexivity).
  assert (Hl : (String.length pre + 1)%nat = String.length (pre ++ String c ""))
    by (rewrite length_app; reflexivity).
  rewrite Ht, Hl. f_equal.
  rewrite get_app_length, (length_app (pre ++ String c "") rest).
  destruct rest as [|c' rest]; cbn [String.length].
  - destruct (_ <? _)%nat; reflexivity.
  - destruct (Nat.ltb_spec (String.length (pre ++ String c ""))
                           (String.length (pre ++ String c "") + S (String.length rest)));
      [reflexivity | lia].
Qed.

Lemma skip_whitespace_split (ws : string) :
  forall pre rest,
  all_chars isspace ws = true -> not_starting isspace rest = true ->
  Lexer.skip_whitespace (at_split pre (ws ++ rest)) = at_split (pre ++ ws) rest.
Proof.
  induction ws as [|c ws IH]; intros pre rest Hws Hrest; simpl in *.
  - rewrite skip_whitespace_eq, app_empty_r.
    unfold Lexer.at_space, at_split; simpl.
    destruct rest as [|c rest]; simpl in *; auto.
    apply negb_true_iff in Hrest. rewrite Hrest. reflexivity.
  - apply andb_true_iff in Hws as [Hc Hws].
    rewrite skip_whitespace_eq. unfold Lexer.at_space at 1. simpl. rewrite Hc.
    rewrite advance_split, IH by assumption.
    rewrite app_assoc_str. reflexivity.
Qed.

Lemma integer_run_split (ds : string) :
  forall r pre rest,
  all_chars isdigit ds = true -> not_starting isdigit rest = true ->
  integer_run (r, at_split pre (ds ++ rest)) = (r ++ ds, at_split (pre ++ ds) rest).
Proof.
  induction ds as [|c ds IH]; intros r pre rest Hds Hrest; simpl in *.
  - rewrite integer_run_eq, !app_empty_r.
    unfold Lexer.at_digit, at_split; simpl.
    destruct rest as [|c rest]; simpl in *; auto.
    apply negb_true_iff in Hrest. rewrite Hrest. reflexivity.
  - apply andb_true_iff in Hds as [Hc Hds].
    rewrite integer_run_eq. unfold Lexer.at_digit at 1. simpl. rewrite Hc.
    unfold Lexer.integer_step. cbn [Lexer.current_char at_split].
    rewrite advance_split, IH by assumption.
    rewrite !app_assoc_str. reflexivity.
Qed.

Lemma isdigit_not_space (c : ascii) : isdigit c = true -> isspace c = false.
Proof.
  destruct c as [[] [] [] [] [] [] [] []]; vm_compute; congruence.
Qed.

(** A run of digits ahead: one INTEGER token, or the [ValueError] of
    [int], and the lexer after the run. *)
Lemma get_next_token_digits (c : ascii) (ds pre rest : string) :
  all_chars isdigit (String c ds) = true -> not_starting isdigit rest = true ->
  Lexer.get_next_token (at_split pre (String c ds ++ rest)) =
  (v <- int_of_digits (String c ds) ;; Ok (mkToken INTEGER (VInt v)),
   at_split (pre ++ String c ds) rest).
Proof.
  intros Hds Hrest. pose proof Hds as Hc. simpl in Hc.
  apply andb_true_iff in Hc as [Hc _].
  rewrite get_next_token_nospace.
  - cbn [Lexer.current_char at_split append]. rewrite Hc.
    rewrite integer_eq.
    change (String c (ds ++ rest)) with (String c ds ++ rest).
    rewrite integer_run_split by assumption. reflexivity.
  - unfold Lexer.at_space; simpl. apply isdigit_not_space, Hc.
Qed.

(** One of the six single-character tokens ahead. *)
Lemma get_next_token_symbol (c : ascii) (pre rest : string) :
  is_symbol c = true ->
  Lexer.get_next_token (at_split pre (String c rest)) =
  (Ok (mkToken (if Ascii.eqb c "+" then PLUS else
                if Ascii.eqb c "-" then MINUS else
                if Ascii.eqb c "*" then MUL else
                if Ascii.eqb c "/" then DIV else
                if Ascii.eqb c "(" then LPAREN else RPAREN)
               (VStr (String c ""))),
   at_split (pre ++ String c "") rest).
Proof.
  intros Hc. unfold is_symbol in Hc.
  assert (Hcases : c = "+"%char \/ c = "-"%char \/ c = "*"%char \/
                   c = "/"%char \/ c = "("%char \/ c = ")"%char).
  { repeat (apply orb_true_iff in Hc as [Hc|Hc]);
      apply Ascii.eqb_eq in Hc; auto 10. }
  rewrite get_next_token_nospace.
  - cbn [Lexer.current_char at_split]. rewrite <- advance_split.
    destruct Hcases as [-> | [-> | [-> | [-> | [-> | ->]]]]]; reflexivity.
  - unfold Lexer.at_space; simpl.
    destruct Hcases as [-> | [-> | [-> | [-> | [-> | ->]]]]]; reflexivity.
Qed.

Lemma get_next_token_end (pre : string) :
  Lexer.get_next_token (at_split pre "") = (Ok (mkToken EOF VNone), at_split pre "").
Proof. apply get_next_token_eof. reflexivity. Qed.

(** ** Decimal numerals *)

Lemma string_of_uint_digits (d : Decimal.uint) :
  all_chars isdigit (NilEmpty.string_of_uint d) = true.
Proof. induction d; simpl; auto. Qed.

Lemma str_of_nat_digits (n : N) : all_chars isdigit (str_of_nat n) = true.
Proof.
  unfold str_of_nat, NilZero.string_of_uint.
  destruct (N.to_uint n); try reflexivity; apply string_of_uint_digits.
Qed.

Lemma str_of_nat_cons (n : N) : exists c ds, str_of_nat n = String c ds.
Proof.
  unfold str_of_nat, NilZero.string_of_uint.
  destruct (N.to_uint n); simpl; eauto.
Qed.

Lemma to_uint_nonnil (n : N) : N.to_uint n <> Decimal.Nil.
Proof.
  destruct n; simpl; [discriminate | apply DecimalPos.Unsigned.to_uint_nonnil].
Qed.

(** [int(str(n)) == n] *)
Lemma int_of_digits_str (n : N) : int_of_digits (str_of_nat n) = Ok (Z.of_N n).
Proof.
  unfold int_of_digits, str_of_nat.
  rewrite NilZero.usu by apply to_uint_nonnil.
  rewrite DecimalN.Unsigned.of_to. reflexivity.
Qed.

(** The decimal numeral of [n] ahead, followed by something that is not a
    digit: the INTEGER token of value [n]. *)
Lemma get_next_token_nat (n : N) (pre rest : string) :
  not_starting isdigit rest = true ->
  Lexer.get_next_token (at_split pre (str_of_nat n ++ rest)) =
  (Ok (mkToken INTEGER (VInt (Z.of_N n))), at_split (pre ++ str_of_nat n) rest).
Proof.
  intros Hrest. pose proof (str_of_nat_digits n) as Hd.
  pose proof (int_of_digits_str n) as Hi.
  destruct (str_of_nat_cons n) as (c & ds & E). rewrite E in *.
  rewrite get_next_token_digits by assumption. rewrite Hi. reflexivity.
Qed.

(** ** The parser, one call at a time *)

Lemma eat_ok (p : Parser.t) (ty : TokenType) (tok : Token) (l' : Lexer.t) :
  type (Parser.current_token p) = ty ->
  Lexer.get_next_token (Parser.lexer p) = (Ok tok, l') ->
  Parser.eat p ty = Ok (Parser.mk l' tok).
Proof.
  intros Hty Hg. unfold Parser.eat. rewrite Hty, Hg.
  destruct ty; reflexivity.
Qed.


Lemma expr_n_S (n : nat) (p : Parser.t) :
  Parser.expr_n (S n) p =
  ('(node, p1) <- Parser.term_n n p ;; Parser.expr_loop n node p1).
Proof. reflexivity. Qed.

Lemma term_n_S (n : nat) (p : Parser.t) :
  Parser.term_n (S n) p =
  ('(node, p1) <- Parser.factor_n n p ;; Parser.term_loop n node p1).
Proof. reflexivity. Qed.

Lemma factor_n_integer (n : nat) (p : Parser.t) :
  type (Parser.current_token p) = INTEGER ->
  Parser.factor_n (S n) p =
  (p1 <- Parser.eat p INTEGER ;; Ok (Num (Parser.current_token p), p1)).
Proof. intros H. cbn [Parser.factor_n]. rewrite H. reflexivity. Qed.

Lemma factor_n_lparen (n : nat) (p : Parser.t) :
  type (Parser.current_token p) = LPAREN ->
  Parser.factor_n (S n) p =
  (p1 <- Parser.eat p LPAREN ;;
   '(node, p2) <- Parser.expr_n n p1 ;;
   p3 <- Parser.eat p2 RPAREN ;;
   Ok (node, p3)).
Proof. intros H. cbn [Parser.factor_n]. rewrite H. reflexivity. Qed.

Lemma factor_n_other (n : nat) (p : Parser.t) :
  TokenType_eqb (type (Parser.current_token p)) INTEGER = false ->
  TokenType_eqb (type (Parser.current_token p)) LPAREN = false ->
  Parser.factor_n (S n) p = Ok (PyNone, p).
Proof. intros H1 H2. cbn [Parser.factor_n]. rewrite H1, H2. reflexivity. Qed.

Lemma term_loop_exit (n : nat) (node : AST) (p : Parser.t) :
  Parser.is_mul_div (type (Parser.current_token p)) = false ->
  Parser.term_loop (S n) node p = Ok (node, p).
Proof. intros H. cbn [Parser.term_loop]. rewrite H. reflexivity. Qed.

Lemma term_loop_iter (n : nat) (node : AST) (p : Parser.t) :
  Parser.is_mul_div (type (Parser.current_token p)) = true ->
  Parser.term_loop (S n) node p =
  (p1 <- Parser.eat p (type (Parser.current_token p)) ;;
   '(right_, p2) <- Parser.factor_n n p1 ;;
   Parser.term_loop n (BinOp node (Parser.current_token p) right_) p2).
Proof.
  intros H. cbn [Parser.term_loop]. rewrite H.
  destruct (type (Parser.current_token p)); try discriminate H; reflexivity.
Qed.

Lemma expr_loop_exit (n : nat) (node : AST) (p : Parser.t) :
  Parser.is_plus_minus (type (Parser.current_token p)) = false ->
  Parser.expr_loop (S n) node p = Ok (node, p).
Proof. intros H. cbn [Parser.expr_loop]. rewrite H. reflexivity. Qed.

Lemma expr_loop_iter (n : nat) (node : AST) (p : Parser.t) :
  Parser.is_plus_minus (type (Parser.current_token p)) = true ->
  Parser.expr_loop (S n) node p =
  (p1 <- Parser.eat p (type (Parser.current_token p)) ;;
   '(right_, p2) <- Parser.term_n n p1 ;;
   Parser.expr_loop n (BinOp node (Parser.current_token p) right_) p2).
Proof.
  intros H. cbn [Parser.expr_loop]. rewrite H.
  destruct (type (Parser.current_token p)); try discriminate H; reflexivity.
Qed.

(** Run the parser one call further on a state whose buffered token is
    known; the lexer is advanced by the lemmas of its three situations. *)
Ltac lex_step :=
  first [ apply get_next_token_nat; reflexivity
        | apply get_next_token_symbol; reflexivity
        | apply get_next_token_end ].

Ltac parse_step :=
  first [ rewrite expr_n_S
        | rewrite term_n_S
        | rewrite factor_n_integer by reflexivity
        | rewrite factor_n_lparen by reflexivity
        | rewrite factor_n_other by reflexivity
        | rewrite term_loop_exit by reflexivity
        | rewrite term_loop_iter by reflexivity
        | rewrite expr_loop_exit by reflexivity
        | rewrite expr_loop_iter by reflexivity
        | erewrite eat_ok; [ | reflexivity | lex_step ] ];
  cbn [bind Parser.current_token Parser.lexer type].

(** ** The parser's methods satisfy the recursion of the source, with no
    counter in sight *)

Lemma parser_fuel_le (n m : nat) :
  (n <= m)%nat ->
  (forall p, Parser.factor_n n p <> Raise FuelExhausted ->
             Parser.factor_n m p = Parser.factor_n n p) /\
  (forall p, Parser.term_n n p <> Raise FuelExhausted ->
             Parser.term_n m p = Parser.term_n n p) /\
  (forall node p, Parser.term_loop n node p <> Raise FuelExhausted ->
             Parser.term_loop m node p = Parser.term_loop n node p) /\
  (forall p, Parser.expr_n n p <> Raise FuelExhausted ->
             Parser.expr_n m p = Parser.expr_n n p) /\
  (forall node p, Parser.expr_loop n node p <> Raise FuelExhausted ->
             Parser.expr_loop m node p = Parser.expr_loop n node p).
Proof.
  induction 1 as [|m Hle (IHf & IHt & IHtl & IHe & IHel)]; [repeat split; auto|].
  destruct (parser_fuel_succ m) as (Sf & St & Stl & Se & Sel).
  repeat split; intros.
  - rewrite Sf; rewrite IHf; auto.
  - rewrite St; rewrite IHt; auto.
  - rewrite Stl; rewrite IHtl; auto.
  - rewrite Se; rewrite IHe; auto.
  - rewrite Sel; rewrite IHel; auto.
Qed.

Lemma factor_n_enough (n : nat) (p : Parser.t) :
  (3 * Parser.measure p + 1 <= n)%nat -> Parser.factor_n n p = Parser.factor p.
Proof.
  intros Hn. unfold Parser.factor.
  destruct (parser_fuel_enough (3 * Parser.measure p + 1)) as (E & _).
  specialize (E p (le_n _)).
  destruct (parser_fuel_le _ n Hn) as (L1 & _).
  destruct (parser_fuel_le (3 * Parser.measure p + 1) (Parser.fuel p)
                           ltac:(unfold Parser.fuel; lia)) as (L2 & _).
  rewrite L1, L2; auto.
Qed.

Lemma term_loop_enough (n : nat) (node : AST) (p : Parser.t) :
  (3 * Parser.measure p + 1 <= n)%nat -> Parser.term_loop n node p = term_while node p.
Proof.
  intros Hn. unfold term_while.
  destruct (parser_fuel_enough (3 * Parser.measure p + 1)) as (_ & _ & E & _).
  specialize (E node p (le_n _)).
  destruct (parser_fuel_le _ n Hn) as (_ & _ & L1 & _).
  destruct (parser_fuel_le (3 * Parser.measure p + 1) (Parser.fuel p)
                           ltac:(unfold Parser.fuel; lia)) as (_ & _ & L2 & _).
  rewrite L1, L2; auto.
Qed.

Lemma term_n_enough (n : nat) (p : Parser.t) :
  (3 * Parser.measure p + 2 <= n)%nat -> Parser.term_n n p = Parser.term p.
Proof.
  intros Hn. unfold Parser.term.
  destruct (parser_fuel_enough (3 * Parser.measure p + 2)) as (_ & E & _).
  specialize (E p (le_n _)).
  destruct (parser_fuel_le _ n Hn) as (_ & L1 & _).
  destruct (parser_fuel_le (3 * Parser.measure p + 2) (Parser.fuel p)
                           ltac:(unfold Parser.fuel; lia)) as (_ & L2 & _).
  rewrite L1, L2; auto.
Qed.

Lemma expr_loop_enough (n : nat) (node : AST) (p : Parser.t) :
  (3 * Parser.measure p + 1 <= n)%nat -> Parser.expr_loop n node p = expr_while node p.
Proof.
  intros Hn. unfold expr_while.
  destruct (parser_fuel_enough (3 * Parser.measure p + 1)) as (_ & _ & _ & _ & E).
  specialize (E node p (le_n _)).
  destruct (parser_fuel_le _ n Hn) as (_ & _ & _ & _ & L1).
  destruct (parser_fuel_le (3 * Parser.measure p + 1) (Parser.fuel p)
                           ltac:(unfold Parser.fuel; lia)) as (_ & _ & _ & _ & L2).
  rewrite L1, L2; auto.
Qed.

Lemma expr_n_enough (n : nat) (p : Parser.t) :
  (3 * Parser.measure p + 3 <= n)%nat -> Parser.expr_n n p = Parser.expr p.
Proof.
  intros Hn. apply expr_n_fuel_le; [exact Hn | apply expr_total].
Qed.

Lemma bind_ext {A B : Type} (r : result A) (k k' : A -> result B) :
  (forall a, r = Ok a -> k a = k' a) -> bind r k = bind r k'.
Proof. destruct r; simpl; auto. Qed.

(** [factor]: a number, or an expression between parentheses, or [None]. *)
Lemma factor_eq (p : Parser.t) :
  Parser.factor p =
  let token := Parser.current_token p in
  if TokenType_eqb (type token) INTEGER then
    p1 <- Parser.eat p INTEGER ;;
    Ok (Num token, p1)
  else if TokenType_eqb (type token) LPAREN then
    p1 <- Parser.eat p LPAREN ;;
    '(node, p2) <- Parser.expr p1 ;;
    p3 <- Parser.eat p2 RPAREN ;;
    Ok (node, p3)
  else Ok (PyNone, p).
Proof.
  unfold Parser.factor, Parser.fuel.
  replace (3 * Parser.measure p + 3)%nat with (S (3 * Parser.measure p + 2)) by lia.
  cbn [Parser.factor_n]. cbv zeta.
  destruct (TokenType_eqb _ INTEGER); [reflexivity|].
  destruct (TokenType_eqb _ LPAREN); [|reflexivity].
  apply bind_ext. intros p1 E. apply eat_measure in E; [|reflexivity].
  rewrite expr_n_enough by lia. reflexivity.
Qed.

(** [term]: a factor, then the loop over [*] and [/]. *)
Lemma term_eq (p : Parser.t) :
  Parser.term p = ('(node, p1) <- Parser.factor p ;; term_while node p1).
Proof.
  unfold Parser.term, Parser.fuel.
  replace (3 * Parser.measure p + 3)%nat with (S (3 * Parser.measure p + 2)) by lia.
  rewrite term_n_S, factor_n_enough by lia.
  apply bind_ext. intros [node p1] E.
  rewrite <- (factor_n_enough (Parser.fuel p)) in E by (unfold Parser.fuel; lia).
  apply (proj1 (parser_measure _)) in E.
  apply term_loop_enough. lia.
Qed.

Lemma term_while_eq (node : AST) (p : Parser.t) :
  term_while node p =
  if Parser.is_mul_div (type (Parser.current_token p)) then
    let token := Parser.current_token p in
    p1 <- (if TokenType_eqb (type token) MUL then Parser.eat p MUL
           else if TokenType_eqb (type token) DIV then Parser.eat p DIV
           else Ok p) ;;
    '(right_, p2) <- Parser.factor p1 ;;
    term_while (BinOp node token right_) p2
  else Ok (node, p).
Proof.
  unfold term_while at 1. unfold Parser.fuel.
  replace (3 * Parser.measure p + 3)%nat with (S (3 * Parser.measure p + 2)) by lia.
  cbn [Parser.term_loop]. cbv zeta.
  destruct (Parser.is_mul_div _) eqn:Em; [|reflexivity].
  apply bind_ext. intros p1 E.
  assert (Hlt : (Parser.measure p1 < Parser.measure p)%nat).
  { unfold Parser.is_mul_div in Em.
    destruct (TokenType_eqb _ MUL); [apply eat_measure in E; auto|].
    simpl in Em. rewrite Em in E. apply eat_measure in E; auto. }
  rewrite factor_n_enough by lia.
  apply bind_ext. intros [r p2] E2.
  rewrite <- (factor_n_enough (Parser.fuel p1)) in E2 by (unfold Parser.fuel; lia).
  apply (proj1 (parser_measure _)) in E2.
  apply term_loop_enough. lia.
Qed.

(** [expr]: a term, then the loop over [+] and [-]. *)
Lemma expr_eq (p : Parser.t) :
  Parser.expr p = ('(node, p1) <- Parser.term p ;; expr_while node p1).
Proof.
  unfold Parser.expr, Parser.fuel.
  replace (3 * Parser.measure p + 3)%nat with (S (3 * Parser.measure p + 2)) by lia.
  rewrite expr_n_S, term_n_enough by lia.
  apply bind_ext. intros [node p1] E.
  rewrite <- (term_n_enough (Parser.fuel p)) in E by (unfold Parser.fuel; lia).
  destruct (parser_measure (Parser.fuel p)) as (_ & Mt & _). apply Mt in E.
  apply expr_loop_enough. lia.
Qed.

Lemma expr_while_eq (node : AST) (p : Parser.t) :
  expr_while node p =
  if Parser.is_plus_minus (type (Parser.current_token p)) then
    let token := Parser.current_token p in
    p1 <- (if TokenType_eqb (type token) PLUS then Parser.eat p PLUS
           else if TokenType_eqb (type token) MINUS then Parser.eat p MINUS
           else Ok p) ;;
    '(right_, p2) <- Parser.term p1 ;;
    expr_while (BinOp node token right_) p2
  else Ok (node, p).
Proof.
  unfold expr_while at 1. unfold Parser.fuel.
  replace (3 * Parser.measure p + 3)%nat with (S (3 * Parser.measure p + 2)) by lia.
  cbn [Parser.expr_loop]. cbv zeta.
  destruct (Parser.is_plus_minus _) eqn:Em; [|reflexivity].
  apply bind_ext. intros p1 E.
  assert (Hlt : (Parser.measure p1 < Parser.measure p)%nat).
  { unfold Parser.is_plus_minus in Em.
    destruct (TokenType_eqb _ PLUS); [apply eat_measure in E; auto|].
    simpl in Em. rewrite Em in E. apply eat_measure in E; auto. }
  rewrite term_n_enough by lia.
  apply bind_ext. intros [r p2] E2.
  rewrite <- (term_n_enough (Parser.fuel p1)) in E2 by (unfold Parser.fuel; lia).
  destruct (parser_measure (Parser.fuel p1)) as (_ & Mt & _). apply Mt in E2.
  apply expr_loop_enough. lia.
Qed.

(** ** Evaluating two numerals around one operator *)

Lemma evaluate_parse_text (text : string) :
  evaluate text = (node <- parse_text text ;; Interpreter.visit node).
Proof.
  unfold evaluate, parse_text, Interpreter.interpret.
  destruct (Parser.init (Lexer.init text)) as [p|e]; cbn [bind Interpreter.parser];
    [|reflexivity].
  destruct (Parser.parse p) as [[node p1]|e]; reflexivity.
Qed.

(** From a goal about [Parser.parse p]: run [expr] with counter [n], which
    must return, and leave the [EOF] check of [parse]. *)
Ltac run_expr n tree :=
  unfold Parser.parse;
  match goal with
  | |- context [Parser.expr ?p] =>
    let H := fresh "H" in
    let pf := fresh "pf" in
    let Hty := fresh "Hty" in
    assert (H : exists pf, Parser.expr_n n p = Ok (tree, pf) /\
                           type (Parser.current_token pf) = EOF)
      by (eexists; repeat parse_step; split; reflexivity);
    destruct H as (pf & H & Hty);
    rewrite (expr_n_expr n) by (rewrite H; discriminate);
    rewrite H; cbn [bind]; rewrite Hty; cbn [bind negb TokenType_eqb]
  end.


(** ** Rounding to binary64: what [binary_normalize] returns

    [int_truediv] hands a mantissa of at least 65 bits to
    [binary_normalize].  The lemmas below follow that function through its
    right shift and its rounding, and show that the result is the binary64
    number nearest to the quotient. *)






























(** The first token, read by [Parser.__init__]. *)
Ltac init_step :=
  unfold parse_text, Parser.init; rewrite at_split_init;
  first [ rewrite get_next_token_nat by reflexivity
        | rewrite get_next_token_symbol by reflexivity ];
  cbn [bind].

(** The trees of [a+b*c], [a-b-c] and [(a+b)*c] for any three numerals. *)
Lemma parse_text_three (a b c : N) :
  parse_text (str_of_nat a ++ "+" ++ str_of_nat b ++ "*" ++ str_of_nat c) =
    Ok (BinOp (num (Z.of_N a)) (mkToken PLUS (VStr "+"))
              (BinOp (num (Z.of_N b)) (mkToken MUL (VStr "*")) (num (Z.of_N c)))) /\
  parse_text (str_of_nat a ++ "-" ++ str_of_nat b ++ "-" ++ str_of_nat c) =
    Ok (BinOp (BinOp (num (Z.of_N a)) (mkToken MINUS (VStr "-")) (num (Z.of_N b)))
              (mkToken MINUS (VStr "-")) (num (Z.of_N c))) /\
  parse_text ("(" ++ str_of_nat a ++ "+" ++ str_of_nat b ++ ")*" ++ str_of_nat c) =
    Ok (BinOp (BinOp (num (Z.of_N a)) (mkToken PLUS (VStr "+")) (num (Z.of_N b)))
              (mkToken MUL (VStr "*")) (num (Z.of_N c))).
Proof.
  cbn [append]. rewrite <- (app_empty_r (str_of_nat c)).
  split; [|split]; init_step.
  - run_expr 8%nat (BinOp (num (Z.of_N a)) (mkToken PLUS (VStr "+"))
              (BinOp (num (Z.of_N b)) (mkToken MUL (VStr "*")) (num (Z.of_N c)))).
    reflexivity.
  - run_expr 8%nat (BinOp (BinOp (num (Z.of_N a)) (mkToken MINUS (VStr "-")) (num (Z.of_N b)))
              (mkToken MINUS (VStr "-")) (num (Z.of_N c))).
    reflexivity.
  - run_expr 12%nat (BinOp (BinOp (num (Z.of_N a)) (mkToken PLUS (VStr "+")) (num (Z.of_N b)))
              (mkToken MUL (VStr "*")) (num (Z.of_N c))).
    reflexivity.
Qed.

(** C2.  Precedence, left association and parentheses: on the three texts
    of the specification, with the trees the parser builds for them, and
    for any three decimal numerals in their place. *)
Theorem precedence_and_associativity :
  (parse_text "2+3*4" =
     Ok (BinOp (num 2) (mkToken PLUS (VStr "+"))
               (BinOp (num 3) (mkToken MUL (VStr "*")) (num 4))) /\
   evaluate "2+3*4" = Ok (VInt 14)) /\
  (parse_text "10-2-3" =
     Ok (BinOp (BinOp (num 10) (mkToken MINUS (VStr "-")) (num 2))
               (mkToken MINUS (VStr "-")) (num 3)) /\
   evaluate "10-2-3" = Ok (VInt 5)) /\
  (parse_text "(2+3)*4" =
     Ok (BinOp (BinOp (num 2) (mkToken PLUS (VStr "+")) (num 3))
               (mkToken MUL (VStr "*")) (num 4)) /\
   evaluate "(2+3)*4" = Ok (VInt 20)) /\
  (forall a b c : N,
     evaluate (str_of_nat a ++ "+" ++ str_of_nat b ++ "*" ++ str_of_nat c) =
       Ok (VInt (Z.of_N a + Z.of_N b * Z.of_N c)) /\
     evaluate (str_of_nat a ++ "-" ++ str_of_nat b ++ "-" ++ str_of_nat c) =
       Ok (VInt (Z.of_N a - Z.of_N b - Z.of_N c)) /\
     evaluate ("(" ++ str_of_nat a ++ "+" ++ str_of_nat b ++ ")*" ++ str_of_nat c) =
       Ok (VInt ((Z.of_N a + Z.of_N b) * Z.of_N c))).
Proof.
  split; [|split; [|split]]; try (split; vm_compute; reflexivity).
  intros a b c. destruct (parse_text_three a b c) as (H1 & H2 & H3).
  rewrite !evaluate_parse_text, H1, H2, H3. repeat split.
Qed.

(** C3.  A division node whose right operand evaluates to zero raises
    [ZeroDivisionError] and computes no quotient.  The check belongs to the
    evaluation of that node: the parser returns the tree of "5/0" without
    complaint, and a node that fails before the division is reached decides
    the outcome. *)
Theorem division_by_zero :
  (forall left_ op right_ v,
     type op = DIV -> Interpreter.visit right_ = Ok v -> py_eq_zero v = true ->
     Interpreter.visit (BinOp left_ op right_) = Raise ZeroDivisionError) /\
  (forall left_ op right_ e,
     type op = PLUS \/ type op = MINUS \/ type op = MUL ->
     Interpreter.visit left_ = Raise e ->
     Interpreter.visit (BinOp left_ op right_) = Raise e) /\
  parse_text "5/0" = Ok (BinOp (num 5) (mkToken DIV (VStr "/")) (num 0)) /\
  evaluate "5/0" = Raise ZeroDivisionError.
Proof.
  split; [|split; [|split; vm_compute; reflexivity]].
  - intros l op r v Hop Hr Hz. cbn [Interpreter.visit]. rewrite Hop, Hr.
    cbn [bind]. rewrite Hz. reflexivity.
  - intros l op r e Hop Hl. cbn [Interpreter.visit].
    destruct Hop as [-> | [-> | ->]]; rewrite Hl; reflexivity.
Qed.

(** The tree of "5/0", and a sum whose left operand fails first. *)
Lemma division_by_zero_witness :
  Interpreter.visit (BinOp (num 5) (mkToken DIV (VStr "/")) (num 0)) =
    Raise ZeroDivisionError /\
  Interpreter.visit (BinOp PyNone (mkToken PLUS (VStr "+"))
                           (BinOp (num 5) (mkToken DIV (VStr "/")) (num 0))) =
    Raise (GenericException "visit_NoneType").
Proof.
  destruct division_by_zero as (Hdiv & Hother & _).
  split.
  - apply (Hdiv (num 5) (mkToken DIV (VStr "/")) (num 0) (VInt 0));
      reflexivity.
  - apply Hother; [left; reflexivity | reflexivity].
Defined.

(** C4.  A character that is neither whitespace, nor a digit, nor one of
    the six symbols makes [get_next_token] raise [LexicalError] with that
    character and leave the lexer where it is; [LexicalError] is raised in
    no other situation (the lexer has skipped whitespace and stands on
    such a character); "2+@" fails with it. *)
Theorem lexical_error_iff_unknown_char :
  (forall l c,
     Lexer.current_char l = Some c ->
     isspace c = false -> isdigit c = false -> is_symbol c = false ->
     Lexer.get_next_token l = (Raise (LexicalError c), l)) /\
  (forall l l' c,
     Lexer.get_next_token l = (Raise (LexicalError c), l') ->
     l' = Lexer.skip_whitespace l /\ Lexer.current_char l' = Some c /\
     isspace c = false /\ isdigit c = false /\ is_symbol c = false) /\
  evaluate "2+@" = Raise (LexicalError "@").
Proof.
  split; [exact get_next_token_unknown|].
  split; [exact get_next_token_lexical_error|].
  vm_compute. reflexivity.
Qed.

(** The lexer of "2+@" standing on the [@], and the lexer of " @". *)
Lemma lexical_error_iff_unknown_char_witness :
  Lexer.get_next_token (Lexer.mk "2+@" 2 (Some "@"%char)) =
    (Raise (LexicalError "@"), Lexer.mk "2+@" 2 (Some "@"%char)) /\
  Lexer.current_char (Lexer.mk " @" 1 (Some "@"%char)) = Some "@"%char.
Proof.
  destruct lexical_error_iff_unknown_char as (Hraise & Honly & _).
  split.
  - apply Hraise; reflexivity.
  - apply (Honly (Lexer.init " @") _ "@"%char). reflexivity.
Defined.

(** C5.  Once the position has reached the end of the text, every further
    [get_next_token] returns the token [EOF] with value [None] and leaves
    the lexer as it is, however many calls are made. *)
Theorem eof_idempotent (text : string) (n : nat) :
  let l := Lexer.after_pulls n (Lexer.init text) in
  Lexer.pos l = String.length text ->
  forall m,
    Lexer.after_pulls m l = l /\
    Lexer.get_next_token (Lexer.after_pulls m l) = (Ok (mkToken EOF VNone), l).
Proof.
  intros l Hpos m.
  pose proof (after_pulls_later n (Lexer.init text) (cursor_inv_init text))
    as (Htext & _ & _ & Hcur).
  fold l in Htext, Hcur. simpl in Htext.
  assert (Hnone : Lexer.current_char l = None).
  { rewrite Hcur, Htext, Hpos, Nat.ltb_irrefl. reflexivity. }
  rewrite after_pulls_eof by assumption.
  split; [reflexivity | apply get_next_token_eof; assumption].
Qed.

(** "2 " after two calls: three more calls change nothing. *)
Lemma eof_idempotent_witness :
  Lexer.after_pulls 3 (Lexer.after_pulls 2 (Lexer.init "2 ")) =
    Lexer.after_pulls 2 (Lexer.init "2 ") /\
  Lexer.get_next_token (Lexer.after_pulls 3 (Lexer.after_pulls 2 (Lexer.init "2 "))) =
    (Ok (mkToken EOF VNone), Lexer.after_pulls 2 (Lexer.init "2 ")).
Proof.
  apply (eof_idempotent "2 " 2). reflexivity.
Defined.

(** C6.  [parse] runs [expr] and then accepts only [EOF] as the buffered
    token, raising [ParsingError] otherwise; so a successful [parse] always
    ends on [EOF].  "2 3" is rejected by that check ([expr] has returned
    the leaf 2 and stands on the INTEGER 3), and "(2+3" and "2+2)" are
    rejected with [ParsingError] as well. *)
Theorem parse_requires_eof :
  (forall p node p1,
     Parser.expr p = Ok (node, p1) ->
     Parser.parse p =
     if TokenType_eqb (type (Parser.current_token p1)) EOF
     then Ok (node, p1) else Raise ParsingError) /\
  (forall p node p1,
     Parser.parse p = Ok (node, p1) -> type (Parser.current_token p1) = EOF) /\
  (exists p p1,
     Parser.init (Lexer.init "2 3") = Ok p /\
     Parser.expr p = Ok (num 2, p1) /\
     Parser.current_token p1 = int_token 3 /\
     Parser.parse p = Raise ParsingError) /\
  evaluate "2 3" = Raise ParsingError /\
  evaluate "(2+3" = Raise ParsingError /\
  evaluate "2+2)" = Raise ParsingError.
Proof.
  split; [|split; [|split]].
  - intros p node p1 H. unfold Parser.parse, Parser.error. rewrite H. cbn [bind].
    destruct (TokenType_eqb _ _); reflexivity.
  - intros p node p1 H. unfold Parser.parse, Parser.error in H.
    destruct (Parser.expr p) as [[node' p1']|e]; cbn [bind] in H; [|discriminate].
    destruct (TokenType_eqb (type (Parser.current_token p1')) EOF) eqn:E;
      cbn [negb] in H; [|discriminate].
    injection H as _ <-. apply TokenType_eqb_eq, E.
  - eexists. eexists. split; [vm_compute; reflexivity|].
    repeat split; vm_compute; reflexivity.
  - repeat split; vm_compute; reflexivity.
Qed.

(** The parser of "2" after its constructor. *)
Lemma parse_requires_eof_witness :
  type (Parser.current_token
          (Parser.mk (Lexer.mk "2" 1 None) (mkToken EOF VNone))) = EOF.
Proof.
  destruct parse_requires_eof as (_ & Hend & _).
  apply (Hend (Parser.mk (Lexer.mk "2" 1 None) (int_token 2)) (num 2)).
  vm_compute. reflexivity.
Defined.

(** C7 (what the code does).  On "+2" the buffered token at the first
    [factor] is PLUS: [factor] returns [None] without raising, [parse]
    returns a tree with [None] as left operand, and the failure is the
    exception of [generic_visit], not [ParsingError].  The same happens on
    "2+" and "()". *)
Theorem factor_falls_through :
  parse_text "+2" = Ok (BinOp PyNone (mkToken PLUS (VStr "+")) (num 2)) /\
  evaluate "+2" = Raise (GenericException "visit_NoneType") /\
  evaluate "2+" = Raise (GenericException "visit_NoneType") /\
  evaluate "()" = Raise (GenericException "visit_NoneType").
Proof. repeat split; vm_compute; reflexivity. Qed.

(** C8 (as stated, refuted).  Were the left operand of a division
    evaluated before the right one is checked, a failure of the left
    operand would be the outcome of the node.  It is not: with [None] on
    the left and 0 on the right the node raises [ZeroDivisionError], and so
    does [evaluate "()/0"]. *)
Lemma division_left_not_first :
  ~ (forall left_ op right_ e,
       type op = DIV -> Interpreter.visit left_ = Raise e ->
       Interpreter.visit (BinOp left_ op right_) = Raise e) /\
  Interpreter.visit PyNone = Raise (GenericException "visit_NoneType") /\
  Interpreter.visit (BinOp PyNone (mkToken DIV (VStr "/")) (num 0)) =
    Raise ZeroDivisionError /\
  evaluate "()/0" = Raise ZeroDivisionError.
Proof.
  split; [|repeat split; vm_compute; reflexivity].
  intros H.
  specialize (H PyNone (mkToken DIV (VStr "/")) (num 0)
                (GenericException "visit_NoneType") eq_refl eq_refl).
  vm_compute in H. discriminate H.
Qed.

(** C8 (amended).  A division node evaluates its right operand first: a
    failure of the right operand, or a right value equal to zero, decides
    the outcome whatever the left operand is; the left operand is evaluated
    only after the right value was found different from zero. *)
Theorem division_right_first (left_ right_ : AST) (op : Token) :
  type op = DIV ->
  (forall e, Interpreter.visit right_ = Raise e ->
             Interpreter.visit (BinOp left_ op right_) = Raise e) /\
  (forall v, Interpreter.visit right_ = Ok v -> py_eq_zero v = true ->
             Interpreter.visit (BinOp left_ op right_) = Raise ZeroDivisionError) /\
  (forall v, Interpreter.visit right_ = Ok v -> py_eq_zero v = false ->
             Interpreter.visit (BinOp left_ op right_) =
             (l <- Interpreter.visit left_ ;; py_truediv l v)).
Proof.
  intros Hop. cbn [Interpreter.visit]. rewrite Hop.
  repeat split; intros x Hr; rewrite Hr; cbn [bind]; auto;
    intros Hz; rewrite Hz; reflexivity.
Qed.

(** A failing right operand, a zero right operand, and 7/2. *)
Lemma division_right_first_witness :
  Interpreter.visit (BinOp PyNone (mkToken DIV (VStr "/")) PyNone) =
    Raise (GenericException "visit_NoneType") /\
  Interpreter.visit (BinOp PyNone (mkToken DIV (VStr "/")) (num 0)) =
    Raise ZeroDivisionError /\
  Interpreter.visit (BinOp (num 7) (mkToken DIV (VStr "/")) (num 2)) =
    Ok (VFloat 3.5).
Proof.
  pose proof (division_right_first PyNone PyNone (mkToken DIV (VStr "/")) eq_refl)
    as (Hraise & _ & _).
  pose proof (division_right_first PyNone (num 0) (mkToken DIV (VStr "/")) eq_refl)
    as (_ & Hzero & _).
  pose proof (division_right_first (num 7) (num 2) (mkToken DIV (VStr "/")) eq_refl)
    as (_ & _ & Hdiv).
  exact (conj (Hraise _ eq_refl)
              (conj (Hzero (VInt 0) eq_refl eq_refl)
                    (Hdiv (VInt 2) eq_refl eq_refl))).
Defined.

Lemma get_lt_some (s : string) (n : nat) :
  (n < String.length s)%nat -> exists c, String.get n s = Some c.
Proof.
  revert n; induction s as [|a s IH]; intros n H; simpl in *; [lia|].
  destruct n; [eauto | apply IH; lia].
Qed.

(** C9.  After any number of calls of [get_next_token] on any text,
    whatever they returned or raised: the text is the same, the position is
    at most the length, [current_char] is the character at the position, or
    [None] when the position is the length, and the position never
    decreases from one call to a later one.  The three helpers keep all
    this: [skip_whitespace] and [integer] always, [advance] whenever there
    is a current character, which is when the lexer calls it. *)
Theorem cursor_invariant (text : string) (n : nat) :
  let l := Lexer.after_pulls n (Lexer.init text) in
  Lexer.text l = text /\
  (Lexer.pos l <= String.length text)%nat /\
  ((Lexer.pos l < String.length text)%nat ->
   exists c, Lexer.current_char l = Some c /\ String.get (Lexer.pos l) text = Some c) /\
  (Lexer.pos l = String.length text -> Lexer.current_char l = None) /\
  (forall m, (n <= m)%nat ->
             (Lexer.pos l <= Lexer.pos (Lexer.after_pulls m (Lexer.init text)))%nat) /\
  later l (Lexer.skip_whitespace l) /\
  later l (snd (Lexer.integer l)) /\
  (Lexer.current_char l <> None -> later l (Lexer.advance l)).
Proof.
  intros l.
  pose proof (after_pulls_later n (Lexer.init text) (cursor_inv_init text))
    as (Htext & _ & Hinv).
  fold l in Htext, Hinv. simpl in Htext.
  pose proof Hinv as [Hle Hcur]. rewrite Htext in Hle, Hcur.
  split; [exact Htext|]. split; [exact Hle|]. split; [|split; [|split; [|split; [|split]]]].
  - intros Hlt. destruct (get_lt_some text (Lexer.pos l) Hlt) as [c Hc].
    exists c. split; [|exact Hc]. rewrite Hcur.
    apply Nat.ltb_lt in Hlt. rewrite Hlt. exact Hc.
  - intros Heq. rewrite Hcur, Heq, Nat.ltb_irrefl. reflexivity.
  - intros m Hm. replace m with (n + (m - n))%nat by lia.
    rewrite after_pulls_add. fold l.
    apply (after_pulls_later (m - n) l Hinv).
  - apply later_skip_whitespace, Hinv.
  - rewrite integer_eq. apply later_integer_run, Hinv.
  - intros Hc. apply later_advance; assumption.
Qed.

(** "12 + 3" after two and after three calls. *)
Lemma cursor_invariant_witness :
  (exists c, Lexer.current_char (Lexer.after_pulls 2 (Lexer.init "12 + 3")) = Some c /\
             String.get (Lexer.pos (Lexer.after_pulls 2 (Lexer.init "12 + 3"))) "12 + 3"
             = Some c) /\
  Lexer.current_char (Lexer.after_pulls 3 (Lexer.init "12 + 3")) = None /\
  (Lexer.pos (Lexer.after_pulls 2 (Lexer.init "12 + 3")) <=
   Lexer.pos (Lexer.after_pulls 3 (Lexer.init "12 + 3")))%nat /\
  later (Lexer.after_pulls 2 (Lexer.init "12 + 3"))
        (Lexer.advance (Lexer.after_pulls 2 (Lexer.init "12 + 3"))).
Proof.
  pose proof (cursor_invariant "12 + 3" 2) as (_ & _ & Hin & _ & Hmono & _ & _ & Hadv).
  pose proof (cursor_invariant "12 + 3" 3) as (_ & _ & _ & Hend & _).
  split; [apply Hin; vm_compute; lia|].
  split; [apply Hend; reflexivity|].
  split; [apply (Hmono 3%nat); lia|].
  apply Hadv. vm_compute. discriminate.
Defined.

(** [advance] itself has no guard: called at the end of the text it moves
    the position past the length.  The lexer never does so. *)
Lemma advance_unguarded :
  Lexer.pos (Lexer.advance (Lexer.init "")) = 1%nat /\
  ~ Lexer.cursor_inv (Lexer.advance (Lexer.init "")).
Proof.
  split; [reflexivity|]. intros [Hle _]. simpl in Hle. lia.
Qed.

(** ** Blank input *)

Lemma get_next_token_blank (ws pre : string) :
  all_chars isspace ws = true ->
  Lexer.get_next_token (at_split pre (ws ++ "")) =
  (Ok (mkToken EOF VNone), at_split (pre ++ ws) "").
Proof.
  intros Hws. destruct ws as [|c ws].
  - simpl. rewrite app_empty_r. apply get_next_token_end.
  - rewrite get_next_token_space.
    + rewrite skip_whitespace_split by auto. apply get_next_token_end.
    + simpl in Hws. apply andb_true_iff in Hws as [Hc _]. exact Hc.
Qed.

Lemma fuel_succ (p : Parser.t) : exists n, Parser.fuel p = S n.
Proof. exists (3 * Parser.measure p + 2)%nat. unfold Parser.fuel. lia. Qed.

(** C10.  On the empty text and on a text of whitespace only: the first
    token is [EOF]; [factor] returns [None] without raising; [parse]
    returns [None] without raising; [interpret] then fails in
    [generic_visit], so that branch is reached through [evaluate], with an
    exception that is none of [LexicalError], [ParsingError] and
    [ZeroDivisionError]. *)
Theorem blank_input (ws : string) :
  all_chars isspace ws = true ->
  exists p,
    Lexer.get_next_token (Lexer.init ws) = (Ok (mkToken EOF VNone), Parser.lexer p) /\
    Parser.init (Lexer.init ws) = Ok p /\
    Parser.factor p = Ok (PyNone, p) /\
    Parser.parse p = Ok (PyNone, p) /\
    evaluate ws = Interpreter.generic_visit PyNone /\
    evaluate ws = Raise (GenericException "visit_NoneType") /\
    (forall c, evaluate ws <> Raise (LexicalError c)) /\
    evaluate ws <> Raise ParsingError /\
    evaluate ws <> Raise ZeroDivisionError.
Proof.
  intros Hws.
  exists (Parser.mk (at_split ("" ++ ws) "") (mkToken EOF VNone)).
  assert (Hlex : Lexer.get_next_token (Lexer.init ws) =
                 (Ok (mkToken EOF VNone), at_split ("" ++ ws) "")).
  { rewrite at_split_init. rewrite <- (app_empty_r ws) at 1.
    apply get_next_token_blank, Hws. }
  assert (Hinit : Parser.init (Lexer.init ws) =
                  Ok (Parser.mk (at_split ("" ++ ws) "") (mkToken EOF VNone))).
  { unfold Parser.init. rewrite Hlex. reflexivity. }
  assert (Hparse : Parser.parse (Parser.mk (at_split ("" ++ ws) "") (mkToken EOF VNone))
                   = Ok (PyNone, Parser.mk (at_split ("" ++ ws) "") (mkToken EOF VNone))).
  { unfold Parser.parse.
    rewrite (expr_n_expr 3); repeat parse_step; [reflexivity | discriminate]. }
  assert (Heval : evaluate ws = Raise (GenericException "visit_NoneType")).
  { unfold evaluate, Interpreter.interpret. rewrite Hinit.
    cbn [bind Interpreter.parser]. rewrite Hparse. reflexivity. }
  split; [exact Hlex|]. split; [exact Hinit|]. split; [|split; [exact Hparse|]].
  - unfold Parser.factor.
    destruct (fuel_succ (Parser.mk (at_split ("" ++ ws) "") (mkToken EOF VNone)))
      as [n ->].
    apply factor_n_other; reflexivity.
  - rewrite Heval. repeat split; try reflexivity; discriminate.
Qed.

(** Three spaces. *)
Lemma blank_input_witness :
  exists p,
    Lexer.get_next_token (Lexer.init "   ") = (Ok (mkToken EOF VNone), Parser.lexer p) /\
    Parser.init (Lexer.init "   ") = Ok p /\
    Parser.factor p = Ok (PyNone, p) /\
    Parser.parse p = Ok (PyNone, p) /\
    evaluate "   " = Interpreter.generic_visit PyNone /\
    evaluate "   " = Raise (GenericException "visit_NoneType") /\
    (forall c, evaluate "   " <> Raise (LexicalError c)) /\
    evaluate "   " <> Raise ParsingError /\
    evaluate "   " <> Raise ZeroDivisionError.
Proof.
  apply (blank_input "   "). reflexivity.
Defined.

(** ** No counter of the model is ever used up *)

Lemma float_of_int_total (z : Z) : float_of_int z <> Raise FuelExhausted.
Proof.
  unfold float_of_int. destruct (binary_normalize _ _ _ _ _); discriminate.
Qed.

Lemma int_truediv_total (a b : Z) : int_truediv a b <> Raise FuelExhausted.
Proof.
  unfold int_truediv. destruct (b =? 0); [discriminate|].
  cbv zeta. destruct (binary_normalize _ _ _ _ _); discriminate.
Qed.

Ltac arith_total :=
  repeat match goal with
         | |- bind _ _ <> Raise FuelExhausted =>
           apply bind_total;
           [first [apply float_of_int_total | apply int_truediv_total] | intros ? _]
         | |- (if ?c then _ else _) <> Raise FuelExhausted => destruct c
         | |- _ => discriminate
         end.

Lemma py_add_total (x y : pyval) : py_add x y <> Raise FuelExhausted.
Proof. destruct x, y; cbn [py_add]; arith_total. Qed.

Lemma py_sub_total (x y : pyval) : py_sub x y <> Raise FuelExhausted.
Proof. destruct x, y; cbn [py_sub]; arith_total. Qed.

Lemma py_mul_total (x y : pyval) : py_mul x y <> Raise FuelExhausted.
Proof. destruct x, y; cbn [py_mul]; arith_total. Qed.

Lemma py_truediv_total (x y : pyval) : py_truediv x y <> Raise FuelExhausted.
Proof. destruct x, y; cbn [py_truediv]; arith_total. Qed.

Lemma visit_total (node : AST) : Interpreter.visit node <> Raise FuelExhausted.
Proof.
  induction node as [l IHl op r IHr | tok |]; cbn [Interpreter.visit];
    try discriminate.
  destruct (type op); try discriminate.
  - apply bind_total; [exact IHl | intros a _].
    apply bind_total; [exact IHr | intros b _]. apply py_add_total.
  - apply bind_total; [exact IHl | intros a _].
    apply bind_total; [exact IHr | intros b _]. apply py_sub_total.
  - apply bind_total; [exact IHl | intros a _].
    apply bind_total; [exact IHr | intros b _]. apply py_mul_total.
  - apply bind_total; [exact IHr | intros b _].
    destruct (py_eq_zero b); [discriminate|].
    apply bind_total; [exact IHl | intros a _]. apply py_truediv_total.
Qed.

(** [evaluate] is a total function of the text, and its outcome is a value
    or a Python exception. *)
Lemma evaluate_total (text : string) : evaluate text <> Raise FuelExhausted.
Proof.
  unfold evaluate, Parser.init, Interpreter.interpret.
  pose proof (get_next_token_total (Lexer.init text)) as Hlex.
  destruct (Lexer.get_next_token (Lexer.init text)) as [[tok|e] l']; simpl in Hlex;
    cbn [bind Interpreter.parser]; [|congruence].
  pose proof (parse_total (Parser.mk l' tok)) as Hp.
  destruct (Parser.parse (Parser.mk l' tok)) as [[tree p1]|e]; cbn [bind];
    [apply visit_total | congruence].
Qed.

(** * Further properties of the lexer *)

Lemma int_of_digits_cases (s : string) :
  (exists z, 0 <= z /\ int_of_digits s = Ok z) \/ int_of_digits s = Raise ValueError.
Proof.
  unfold int_of_digits. destruct (NilZero.uint_of_string s) as [d|]; [left|right; reflexivity].
  exists (Z.of_N (N.of_uint d)). split; [lia | reflexivity].
Qed.

(** What [get_next_token] can raise: [LexicalError], or the [ValueError] of
    [int], and then a run of digits has been consumed. *)
Lemma get_next_token_raises (l l' : Lexer.t) (e : exception) :
  Lexer.get_next_token l = (Raise e, l') ->
  (exists c, e = LexicalError c) \/
  (e = ValueError /\ (Lexer.remaining l' < Lexer.remaining l)%nat).
Proof.
  assert (Hns : forall l, Lexer.at_space l = false ->
                Lexer.get_next_token l = (Raise e, l') ->
                (exists c, e = LexicalError c) \/
                (e = ValueError /\ (Lexer.remaining l' < Lexer.remaining l)%nat)).
  { clear l. intros l H. gnt_cases l H; intros Heq; try discriminate.
    - injection Heq as Hr <-. right.
      destruct (int_of_digits_cases (fst (integer_run ("", l)))) as [(z & _ & Hz)|Hz];
        rewrite Hz in Hr; simpl in Hr; [discriminate|].
      injection Hr as <-. split; [reflexivity|].
      apply integer_run_remaining. unfold Lexer.at_digit. rewrite Ec. exact Ed.
    - injection Heq as <- <-. left. eauto. }
  intros Heq. destruct (Lexer.at_space l) eqn:H.
  - rewrite get_next_token_space in Heq by assumption.
    apply Hns in Heq; [|apply skip_whitespace_exit].
    pose proof (skip_whitespace_remaining l).
    destruct Heq as [Hc | [He Hlt]]; [left; exact Hc | right; split; [exact He | lia]].
  - apply Hns; assumption.
Qed.

Lemma get_next_token_token_ok (l l' : Lexer.t) (tok : Token) :
  Lexer.get_next_token l = (Ok tok, l') -> token_ok tok.
Proof.
  assert (Hns : forall l, Lexer.at_space l = false ->
                Lexer.get_next_token l = (Ok tok, l') -> token_ok tok).
  { clear l. intros l H. gnt_cases l H; intros Heq; try discriminate;
      try (injection Heq as <- _; reflexivity).
    injection Heq as Hr _.
    destruct (int_of_digits_cases (fst (integer_run ("", l)))) as [(z & Hz0 & Hz)|Hz];
      rewrite Hz in Hr; simpl in Hr; [|discriminate].
    injection Hr as <-. exists z. split; [exact Hz0 | reflexivity]. }
  intros Heq. destruct (Lexer.at_space l) eqn:H.
  - rewrite get_next_token_space in Heq by assumption.
    apply Hns in Heq; [exact Heq | apply skip_whitespace_exit].
  - apply Hns in Heq; assumption.
Qed.

Lemma remaining_zero (l : Lexer.t) :
  Lexer.remaining l = O <-> Lexer.current_char l = None.
Proof.
  unfold Lexer.remaining. destruct (Lexer.current_char l); split; congruence.
Qed.

Lemma settled_after_pulls (l : Lexer.t) (n : nat) :
  settled l -> Lexer.after_pulls n l = l.
Proof.
  intros Hs. induction n as [|n IH]; simpl; auto.
  destruct Hs as [Hs | [c Hs]]; rewrite Hs; simpl; exact IH.
Qed.

Lemma lexical_error_settled (l l' : Lexer.t) (c : ascii) :
  Lexer.get_next_token l = (Raise (LexicalError c), l') ->
  Lexer.get_next_token l' = (Raise (LexicalError c), l').
Proof.
  intros H. apply get_next_token_lexical_error in H as (_ & Hc & Hs & Hd & Hy).
  apply get_next_token_unknown; assumption.
Qed.

(** One call either consumes, or leaves a lexer that has come to rest. *)
Lemma get_next_token_progress (l : Lexer.t) :
  settled (snd (Lexer.get_next_token l)) \/
  (Lexer.remaining (snd (Lexer.get_next_token l)) < Lexer.remaining l)%nat.
Proof.
  destruct (Lexer.get_next_token l) as [[tok|e] l'] eqn:Heq; simpl.
  - pose proof (get_next_token_remaining _ _ _ Heq) as Hr.
    destruct (TokenType_eqb (type tok) EOF); [|right; exact Hr].
    left. left. apply get_next_token_eof, remaining_zero, Hr.
  - destruct (get_next_token_raises _ _ _ Heq) as [[c ->] | [_ Hlt]];
      [|right; exact Hlt].
    left. right. exists c. eapply lexical_error_settled, Heq.
Qed.

Lemma cursor_inv_none (l : Lexer.t) :
  Lexer.cursor_inv l ->
  (Lexer.current_char l = None <-> Lexer.pos l = String.length (Lexer.text l)).
Proof.
  intros [Hle Hcur]. rewrite Hcur.
  destruct (Nat.ltb_spec (Lexer.pos l) (String.length (Lexer.text l))) as [Hlt|Hge].
  - destruct (get_lt_some _ _ Hlt) as [c ->]. split; [discriminate | lia].
  - split; [lia | reflexivity].
Qed.

Lemma later_settles (n : nat) :
  forall l, Lexer.cursor_inv l ->
  (String.length (Lexer.text l) - Lexer.pos l <= n)%nat ->
  settled (Lexer.after_pulls n l).
Proof.
  induction n as [|n IH]; intros l Hinv Hn.
  - simpl. left. apply get_next_token_eof. apply cursor_inv_none; [assumption|].
    destruct Hinv as [Hle _]. lia.
  - simpl. pose proof (get_next_token_later l Hinv) as (Ht & Hp & Hinv').
    destruct (get_next_token_progress l) as [Hs | Hlt].
    + rewrite settled_after_pulls; assumption.
    + apply IH; [assumption|].
      unfold Lexer.remaining in Hlt.
      destruct (Lexer.current_char (snd (Lexer.get_next_token l))) eqn:Ec'.
      * destruct (Lexer.current_char l); [|lia]. rewrite Ht in *. lia.
      * apply cursor_inv_none in Ec'; [|assumption]. rewrite Ht in *. lia.
Qed.

(** X1.  Tokenising comes to rest: after as many calls of
    [get_next_token] as the text has characters (whatever they returned or
    raised), the lexer no longer moves, and each further call gives the
    same answer: the token [EOF], or the same [LexicalError]. *)
Theorem lexer_comes_to_rest (text : string) (n : nat) :
  (String.length text <= n)%nat ->
  let l := Lexer.after_pulls n (Lexer.init text) in
  (forall m, Lexer.after_pulls m l = l) /\
  (Lexer.get_next_token l = (Ok (mkToken EOF VNone), l) \/
   exists c, Lexer.get_next_token l = (Raise (LexicalError c), l)).
Proof.
  intros Hn l.
  assert (Hs : settled l).
  { apply later_settles; [apply cursor_inv_init | simpl; lia]. }
  split; [intros m; apply settled_after_pulls, Hs | exact Hs].
Qed.

(** "1+@": three calls, and the lexer rests on the [@]. *)
Lemma lexer_comes_to_rest_witness :
  (forall m, Lexer.after_pulls m (Lexer.after_pulls 3 (Lexer.init "1+@")) =
             Lexer.after_pulls 3 (Lexer.init "1+@")) /\
  (Lexer.get_next_token (Lexer.after_pulls 3 (Lexer.init "1+@")) =
     (Ok (mkToken EOF VNone), Lexer.after_pulls 3 (Lexer.init "1+@")) \/
   exists c, Lexer.get_next_token (Lexer.after_pulls 3 (Lexer.init "1+@")) =
             (Raise (LexicalError c), Lexer.after_pulls 3 (Lexer.init "1+@"))).
Proof.
  apply (lexer_comes_to_rest "1+@" 3). simpl. lia.
Defined.

(** X2.  A [LexicalError] is permanent: the lexer stays on the offending
    character (it has only skipped the whitespace before it), and every
    later call raises the same error again. *)
Theorem lexical_error_is_permanent (l l' : Lexer.t) (c : ascii) :
  Lexer.get_next_token l = (Raise (LexicalError c), l') ->
  Lexer.current_char l' = Some c /\
  forall n,
    Lexer.after_pulls n l' = l' /\
    Lexer.get_next_token (Lexer.after_pulls n l') = (Raise (LexicalError c), l').
Proof.
  intros H. pose proof (lexical_error_settled _ _ _ H) as Hs.
  apply get_next_token_lexical_error in H as (_ & Hc & _).
  split; [exact Hc|]. intros n.
  rewrite settled_after_pulls by (right; eauto). auto.
Qed.

(** The lexer of " @+1": the [+1] behind the [@] is never reached. *)
Lemma lexical_error_is_permanent_witness :
  Lexer.current_char (Lexer.mk " @+1" 1 (Some "@"%char)) = Some "@"%char /\
  forall n,
    Lexer.after_pulls n (Lexer.mk " @+1" 1 (Some "@"%char)) =
      Lexer.mk " @+1" 1 (Some "@"%char) /\
    Lexer.get_next_token (Lexer.after_pulls n (Lexer.mk " @+1" 1 (Some "@"%char))) =
      (Raise (LexicalError "@"), Lexer.mk " @+1" 1 (Some "@"%char)).
Proof.
  apply (lexical_error_is_permanent (Lexer.init " @+1")). reflexivity.
Defined.

(** ** Digit runs and [int] *)

Lemma isdigit_ascii (c : ascii) : is_ascii_digit c = true -> isdigit c = true.
Proof.
  unfold is_ascii_digit, isdigit. cbv zeta. intros ->. reflexivity.
Qed.

Lemma uint_of_char_other (c : ascii) (d : option Decimal.uint) :
  is_ascii_digit c = false -> uint_of_char c d = None.
Proof.
  intros H. destruct d as [d|]; [|reflexivity].
  destruct c as [[] [] [] [] [] [] [] []]; try reflexivity; discriminate H.
Qed.

Lemma uint_of_string_other (s : string) :
  all_chars is_ascii_digit s = false -> NilEmpty.uint_of_string s = None.
Proof.
  induction s as [|c s IH]; simpl; [discriminate|].
  intros H. apply andb_false_iff in H as [H|H].
  - apply uint_of_char_other, H.
  - rewrite (IH H). reflexivity.
Qed.

Lemma string_of_uint_app (d : Decimal.uint) :
  d <> Decimal.Nil -> exists c ds, NilEmpty.string_of_uint d = String c ds.
Proof. destruct d; simpl; eauto; congruence. Qed.

Lemma int_of_digits_uint (d : Decimal.uint) :
  d <> Decimal.Nil ->
  int_of_digits (NilEmpty.string_of_uint d) = Ok (Z.of_N (N.of_uint d)).
Proof.
  intros Hd. unfold int_of_digits, NilZero.uint_of_string.
  destruct (string_of_uint_app d Hd) as (c & ds & E). rewrite E, <- E.
  rewrite NilEmpty.usu. reflexivity.
Qed.

(** The first token of a text that is a digit run followed by something
    else, as [Parser.__init__] pulls it. *)
Lemma init_digits (c : ascii) (ds rest : string) :
  all_chars isdigit (String c ds) = true -> not_starting isdigit rest = true ->
  Parser.init (Lexer.init (String c ds ++ rest)) =
  (v <- int_of_digits (String c ds) ;;
   Ok (Parser.mk (at_split ("" ++ String c ds) rest) (mkToken INTEGER (VInt v)))).
Proof.
  intros Hds Hrest. unfold Parser.init. rewrite at_split_init.
  rewrite get_next_token_digits by assumption.
  destruct (int_of_digits (String c ds)); reflexivity.
Qed.

(** A text that is one run of digits: the value of [int], or its error. *)
Lemma evaluate_digits (c : ascii) (ds : string) :
  all_chars isdigit (String c ds) = true ->
  evaluate (String c ds) = (v <- int_of_digits (String c ds) ;; Ok (VInt v)).
Proof.
  intros Hds. unfold evaluate.
  pose proof (init_digits c ds "" Hds eq_refl) as Hi.
  rewrite (app_empty_r (String c ds)) in Hi. rewrite Hi. clear Hi.
  destruct (int_of_digits (String c ds)) as [v|e]; cbn [bind]; [|reflexivity].
  unfold Interpreter.interpret. cbn [Interpreter.parser].
  run_expr 3%nat (Num (mkToken INTEGER (VInt v))). reflexivity.
Qed.

Lemma string_of_uint_isdigit (d : Decimal.uint) :
  all_chars isdigit (NilEmpty.string_of_uint d) = true.
Proof. induction d; simpl; auto. Qed.

(** X3.  A decimal numeral evaluates to its value, leading zeros or not:
    for every non-empty sequence [d] of fewer than 4300 decimal digits
    (with one more digit the numeral is still one that [int] converts),
    the text of [d] evaluates to the number [d] denotes, and a zero put in
    front changes nothing. *)
Theorem numeral_value (d : Decimal.uint) :
  d <> Decimal.Nil ->
  (String.length (NilEmpty.string_of_uint d) < 4300)%nat ->
  evaluate (NilEmpty.string_of_uint d) = Ok (VInt (Z.of_N (N.of_uint d))) /\
  evaluate ("0" ++ NilEmpty.string_of_uint d) = evaluate (NilEmpty.string_of_uint d).
Proof.
  intros Hd _.
  assert (Hval : forall d, d <> Decimal.Nil ->
            evaluate (NilEmpty.string_of_uint d) = Ok (VInt (Z.of_N (N.of_uint d)))).
  { clear d Hd. intros d Hd.
    pose proof (string_of_uint_isdigit d) as Hall.
    pose proof (int_of_digits_uint d Hd) as Hint.
    destruct (string_of_uint_app d Hd) as (c & ds & E). rewrite E in *.
    rewrite evaluate_digits by assumption. rewrite Hint. reflexivity. }
  split; [apply Hval, Hd|].
  change ("0" ++ NilEmpty.string_of_uint d) with (NilEmpty.string_of_uint (Decimal.D0 d)).
  rewrite !Hval by (assumption || discriminate). reflexivity.
Qed.

(** "007" is 7. *)
Lemma numeral_value_witness :
  evaluate "007" = Ok (VInt 7) /\ evaluate "0007" = evaluate "007".
Proof.
  apply (numeral_value (Decimal.D0 (Decimal.D0 (Decimal.D7 Decimal.Nil)))).
  - discriminate.
  - simpl. lia.
Defined.

(** The [isdigit] characters of code points below 256 that are not among
    0..9 are the superscript digits U+00B2, U+00B3 and U+00B9. *)
Lemma isdigit_not_ascii_digit (c : ascii) :
  isdigit c && negb (is_ascii_digit c) = true <->
  (code c = 178 \/ code c = 179 \/ code c = 185)%N.
Proof.
  destruct c as [[] [] [] [] [] [] [] []]; vm_compute;
    (split; [intros H; try discriminate H; auto
            | intros [H | [H | H]]; try discriminate H; reflexivity]).
Qed.

(** X4.  Texts of code points below 256, the texts of this model.  There
    the [isdigit] characters that are not among 0..9 are the superscript
    digits U+00B2, U+00B3 and U+00B9.  A run of [isdigit] characters that
    holds one of them is consumed as a whole and then [int] raises
    [ValueError]: not a [LexicalError], and not a token.  A text that
    begins with such a run evaluates to that [ValueError]. *)
Theorem superscript_digit_value_error (c : ascii) (ds pre rest : string) :
  all_chars isdigit (String c ds) = true ->
  all_chars is_ascii_digit (String c ds) = false ->
  not_starting isdigit rest = true ->
  (forall c', isdigit c' && negb (is_ascii_digit c') = true <->
              (code c' = 178 \/ code c' = 179 \/ code c' = 185)%N) /\
  Lexer.get_next_token (at_split pre (String c ds ++ rest)) =
    (Raise ValueError, at_split (pre ++ String c ds) rest) /\
  evaluate (String c ds ++ rest) = Raise ValueError.
Proof.
  intros Hds Hnot Hrest.
  assert (Hint : int_of_digits (String c ds) = Raise ValueError).
  { unfold int_of_digits, NilZero.uint_of_string.
    rewrite (uint_of_string_other _ Hnot). reflexivity. }
  split; [exact isdigit_not_ascii_digit|]. split.
  - rewrite get_next_token_digits by assumption. rewrite Hint. reflexivity.
  - unfold evaluate. rewrite init_digits by assumption. rewrite Hint. reflexivity.
Qed.

(** The digit 1 followed by a superscript 2, then [+1]. *)
Lemma superscript_digit_value_error_witness :
  Lexer.get_next_token (at_split "" (String "1" (String "178" "") ++ "+1")) =
    (Raise ValueError, at_split ("" ++ String "1" (String "178" "")) "+1") /\
  evaluate (String "1" (String "178" "") ++ "+1") = Raise ValueError.
Proof.
  exact (proj2 (superscript_digit_value_error "1" (String "178" "") "" "+1"
                  eq_refl eq_refl eq_refl)).
Defined.

(** * Further properties of the parser and the interpreter *)

Lemma state_ok_later (text : string) (p : Parser.t) :
  state_ok text p -> later (Lexer.init text) (Parser.lexer p).
Proof.
  intros (l0 & Hl & Hg). apply (later_trans _ _ _ Hl).
  pose proof (get_next_token_later l0 (proj2 (proj2 Hl))) as H.
  rewrite Hg in H. exact H.
Qed.

Lemma state_ok_init (text : string) (p : Parser.t) :
  Parser.init (Lexer.init text) = Ok p -> state_ok text p.
Proof.
  unfold Parser.init. intros H. exists (Lexer.init text).
  split; [apply later_refl, cursor_inv_init|].
  destruct (Lexer.get_next_token (Lexer.init text)) as [[tok|e] l'];
    cbn [bind] in H; [|discriminate].
  injection H as <-. reflexivity.
Qed.

Lemma eat_state_ok (text : string) (p : Parser.t) (ty : TokenType) :
  state_ok text p ->
  match Parser.eat p ty with
  | Ok p' => state_ok text p'
  | Raise e => (exists c, e = LexicalError c) \/ e = ValueError \/ e = ParsingError
  end.
Proof.
  intros Hp. pose proof (state_ok_later _ _ Hp) as Hl.
  unfold Parser.eat, Parser.error.
  destruct (TokenType_eqb _ _); [|auto].
  destruct (Lexer.get_next_token (Parser.lexer p)) as [[tok|e] l'] eqn:Hg; cbn [bind].
  - exists (Parser.lexer p). split; [exact Hl | exact Hg].
  - destruct (get_next_token_raises _ _ _ Hg) as [Hc | [-> _]]; auto.
Qed.

Lemma bind_result_ok {A : Type} (text : string) (P : A -> Prop)
      (r : result A) (k : A -> result (AST * Parser.t)) :
  match r with Ok a => P a | Raise e => parser_raises e end ->
  (forall a, P a -> result_ok text (k a)) ->
  result_ok text (bind r k).
Proof. destruct r; simpl; auto. Qed.

Lemma eat_result_ok (text : string) (p : Parser.t) (ty : TokenType) :
  state_ok text p ->
  match Parser.eat p ty with
  | Ok p' => state_ok text p'
  | Raise e => parser_raises e
  end.
Proof.
  intros Hp. pose proof (eat_state_ok text p ty Hp) as H.
  destruct (Parser.eat p ty); [exact H|].
  unfold parser_raises. tauto.
Qed.

Lemma state_ok_token (text : string) (p : Parser.t) :
  state_ok text p -> token_ok (Parser.current_token p).
Proof. intros (l0 & _ & Hg). eapply get_next_token_token_ok, Hg. Qed.

(** The parser keeps its state and builds only such trees. *)
Lemma parser_result_ok (text : string) (n : nat) :
  (forall p, state_ok text p -> result_ok text (Parser.factor_n n p)) /\
  (forall p, state_ok text p -> result_ok text (Parser.term_n n p)) /\
  (forall node p, tree_ok node -> state_ok text p ->
                  result_ok text (Parser.term_loop n node p)) /\
  (forall p, state_ok text p -> result_ok text (Parser.expr_n n p)) /\
  (forall node p, tree_ok node -> state_ok text p ->
                  result_ok text (Parser.expr_loop n node p)).
Proof.
  induction n as [|n (IHf & IHt & IHtl & IHe & IHel)].
  - repeat split; intros; simpl; unfold parser_raises; auto.
  - repeat split.
    + intros p Hp. cbn [Parser.factor_n].
      destruct (TokenType_eqb (type (Parser.current_token p)) INTEGER) eqn:Ei.
      * apply (bind_result_ok text (state_ok text)); [apply eat_result_ok, Hp|].
        intros p1 Hp1. simpl. repeat split; auto.
        -- apply TokenType_eqb_eq, Ei.
        -- apply (state_ok_token text), Hp.
      * destruct (TokenType_eqb (type (Parser.current_token p)) LPAREN).
        -- apply (bind_result_ok text (state_ok text)); [apply eat_result_ok, Hp|].
           intros p1 Hp1.
           apply (bind_result_ok text (fun np => tree_ok (fst np) /\ state_ok text (snd np))).
           { specialize (IHe p1 Hp1). destruct (Parser.expr_n n p1) as [[nd p2]|e]; exact IHe. }
           intros [nd p2] [Hnd Hp2]. simpl in Hnd, Hp2.
           apply (bind_result_ok text (state_ok text)); [apply eat_result_ok, Hp2|].
           intros p3 Hp3. simpl. auto.
        -- simpl. auto.
    + intros p Hp. cbn [Parser.term_n].
      apply (bind_result_ok text (fun np => tree_ok (fst np) /\ state_ok text (snd np))).
      { specialize (IHf p Hp). destruct (Parser.factor_n n p) as [[nd p1]|e]; exact IHf. }
      intros [nd p1] [Hnd Hp1]. apply IHtl; assumption.
    + intros node p Hnode Hp. cbn [Parser.term_loop].
      destruct (Parser.is_mul_div (type (Parser.current_token p))) eqn:Em;
        [|simpl; auto].
      apply (bind_result_ok text (state_ok text)).
      { destruct (TokenType_eqb _ MUL); [apply eat_result_ok, Hp|].
        destruct (TokenType_eqb _ DIV); [apply eat_result_ok, Hp | exact Hp]. }
      intros p1 Hp1.
      apply (bind_result_ok text (fun np => tree_ok (fst np) /\ state_ok text (snd np))).
      { specialize (IHf p1 Hp1). destruct (Parser.factor_n n p1) as [[nd p2]|e]; exact IHf. }
      intros [nd p2] [Hnd Hp2]. apply IHtl; [|assumption].
      simpl. rewrite Em, orb_true_r. auto.
    + intros p Hp. cbn [Parser.expr_n].
      apply (bind_result_ok text (fun np => tree_ok (fst np) /\ state_ok text (snd np))).
      { specialize (IHt p Hp). destruct (Parser.term_n n p) as [[nd p1]|e]; exact IHt. }
      intros [nd p1] [Hnd Hp1]. apply IHel; assumption.
    + intros node p Hnode Hp. cbn [Parser.expr_loop].
      destruct (Parser.is_plus_minus (type (Parser.current_token p))) eqn:Em;
        [|simpl; auto].
      apply (bind_result_ok text (state_ok text)).
      { destruct (TokenType_eqb _ PLUS); [apply eat_result_ok, Hp|].
        destruct (TokenType_eqb _ MINUS); [apply eat_result_ok, Hp | exact Hp]. }
      intros p1 Hp1.
      apply (bind_result_ok text (fun np => tree_ok (fst np) /\ state_ok text (snd np))).
      { specialize (IHt p1 Hp1). destruct (Parser.term_n n p1) as [[nd p2]|e]; exact IHt. }
      intros [nd p2] [Hnd Hp2]. apply IHel; [|assumption].
      simpl. rewrite Em. auto.
Qed.

Lemma parse_result_ok (text : string) (p : Parser.t) :
  state_ok text p ->
  match Parser.parse p with
  | Ok (node, p') =>
    tree_ok node /\ state_ok text p' /\ type (Parser.current_token p') = EOF
  | Raise e => (exists c, e = LexicalError c) \/ e = ValueError \/ e = ParsingError
  end.
Proof.
  intros Hp. unfold Parser.parse, Parser.error.
  pose proof (expr_total p) as Htot.
  destruct (parser_result_ok text (Parser.fuel p)) as (_ & _ & _ & He & _).
  specialize (He p Hp). fold (Parser.expr p) in He.
  destruct (Parser.expr p) as [[node p1]|e]; cbn [bind].
  - destruct He as [Hn Hp1].
    destruct (TokenType_eqb (type (Parser.current_token p1)) EOF) eqn:E; cbn [negb].
    + apply TokenType_eqb_eq in E. auto.
    + auto.
  - destruct He as [Hc | [-> | [-> | ->]]]; auto. congruence.
Qed.

(** ** Numbers in, numbers out *)

Lemma float_of_int_cases (z : Z) :
  (exists f, float_of_int z = Ok f) \/ float_of_int z = Raise OverflowError.
Proof.
  unfold float_of_int. destruct (binary_normalize _ _ _ _ _); eauto.
Qed.

Lemma int_truediv_cases (a b : Z) :
  (exists f, int_truediv a b = Ok f) \/ int_truediv a b = Raise OverflowError \/
  int_truediv a b = Raise ZeroDivisionError.
Proof.
  unfold int_truediv. destruct (b =? 0); [auto|]. cbv zeta.
  destruct (binary_normalize _ _ _ _ _); eauto.
Qed.

Ltac number_cases :=
  repeat match goal with
         | |- context [float_of_int ?z] =>
           let f := fresh "f" in
           let E := fresh "E" in
           destruct (float_of_int_cases z) as [[f E] | E]; rewrite E; cbn [bind]
         | |- context [int_truediv ?a ?b] =>
           let f := fresh "f" in
           let E := fresh "E" in
           destruct (int_truediv_cases a b) as [[f E] | [E | E]]; rewrite E; cbn [bind]
         | |- context [if ?c then _ else _] => destruct c
         end;
  simpl; eauto.

Lemma py_add_number (x y : pyval) :
  is_number x = true -> is_number y = true ->
  match py_add x y with
  | Ok v => is_number v = true
  | Raise e => e = OverflowError
  end.
Proof. destruct x, y; try discriminate; intros _ _; cbn [py_add]; number_cases. Qed.

Lemma py_sub_number (x y : pyval) :
  is_number x = true -> is_number y = true ->
  match py_sub x y with
  | Ok v => is_number v = true
  | Raise e => e = OverflowError
  end.
Proof. destruct x, y; try discriminate; intros _ _; cbn [py_sub]; number_cases. Qed.

Lemma py_mul_number (x y : pyval) :
  is_number x = true -> is_number y = true ->
  match py_mul x y with
  | Ok v => is_number v = true
  | Raise e => e = OverflowError
  end.
Proof. destruct x, y; try discriminate; intros _ _; cbn [py_mul]; number_cases. Qed.

(** True division gives a float, whatever the operands. *)
Lemma py_truediv_float (x y : pyval) :
  match py_truediv x y with
  | Ok v => exists f, v = VFloat f
  | Raise e => e = OverflowError \/ e = ZeroDivisionError \/ e = TypeError
  end.
Proof. destruct x, y; cbn [py_truediv]; number_cases. Qed.

Lemma py_truediv_number (x y : pyval) :
  is_number x = true -> is_number y = true ->
  match py_truediv x y with
  | Ok v => exists f, v = VFloat f
  | Raise e => e = OverflowError \/ e = ZeroDivisionError
  end.
Proof. destruct x, y; try discriminate; intros _ _; cbn [py_truediv]; number_cases. Qed.

Lemma visit_tree_ok (t : AST) : tree_ok t -> visit_ok (Interpreter.visit t).
Proof.
  induction t as [l IHl op r IHr | tok |]; cbn [tree_ok Interpreter.visit].
  - intros (Hop & Hl & Hr). specialize (IHl Hl). specialize (IHr Hr).
    unfold visit_ok in *.
    destruct (type op); try discriminate Hop.
    + destruct (Interpreter.visit l) as [a|e]; cbn [bind]; [|tauto].
      destruct (Interpreter.visit r) as [b|e]; cbn [bind]; [|tauto].
      pose proof (py_add_number a b IHl IHr) as H.
      destruct (py_add a b); [exact H | tauto].
    + destruct (Interpreter.visit l) as [a|e]; cbn [bind]; [|tauto].
      destruct (Interpreter.visit r) as [b|e]; cbn [bind]; [|tauto].
      pose proof (py_sub_number a b IHl IHr) as H.
      destruct (py_sub a b); [exact H | tauto].
    + destruct (Interpreter.visit l) as [a|e]; cbn [bind]; [|tauto].
      destruct (Interpreter.visit r) as [b|e]; cbn [bind]; [|tauto].
      pose proof (py_mul_number a b IHl IHr) as H.
      destruct (py_mul a b); [exact H | tauto].
    + destruct (Interpreter.visit r) as [b|e]; cbn [bind]; [|tauto].
      destruct (py_eq_zero b); [tauto|].
      destruct (Interpreter.visit l) as [a|e]; cbn [bind]; [|tauto].
      pose proof (py_truediv_number a b IHl IHr) as H.
      destruct (py_truediv a b) as [v|e]; [|tauto].
      destruct H as [f ->]. reflexivity.
  - intros [Hty Htok]. unfold token_ok in Htok. rewrite Hty in Htok.
    destruct Htok as (z & _ & ->). reflexivity.
  - intros _. simpl. tauto.
Qed.

Lemma evaluate_outcome_ok (text : string) : outcome_ok (evaluate text).
Proof.
  unfold evaluate, Parser.init, Interpreter.interpret.
  destruct (Lexer.get_next_token (Lexer.init text)) as [[tok|e] l'] eqn:Hg;
    cbn [bind Interpreter.parser].
  - assert (Hp : state_ok text (Parser.mk l' tok)).
    { apply state_ok_init. unfold Parser.init. rewrite Hg. reflexivity. }
    pose proof (parse_result_ok text _ Hp) as H.
    destruct (Parser.parse (Parser.mk l' tok)) as [[tree p1]|e]; cbn [bind].
    + destruct H as (Htree & _ & _). pose proof (visit_tree_ok tree Htree) as Hv.
      unfold visit_ok in Hv. unfold outcome_ok.
      destruct (Interpreter.visit tree); [exact Hv | tauto].
    + simpl. tauto.
  - destruct (get_next_token_raises _ _ _ Hg) as [Hc | [-> _]]; simpl; tauto.
Qed.

(** X5.  The outcomes of [evaluate] on a text within the sizes of
    [within_limits] (at most 100 opening parentheses, 200 operators and
    4300 characters, so that CPython's recursion limit and the digit limit
    of [int] are not reached): the result is an [int] or a [float], or one
    of six exceptions is raised: [LexicalError], [ParsingError],
    [ZeroDivisionError], the [ValueError] of [int], the [OverflowError] of
    a conversion to [float], and the exception of [generic_visit] on
    [None].  It is never a string or [None]; and on no text at all is a
    [TypeError] raised.  Each of the eight occurs on a text within these
    sizes. *)
Theorem evaluate_outcomes :
  (forall text, within_limits text = true -> outcome_ok (evaluate text)) /\
  (forall text, evaluate text <> Raise TypeError) /\
  evaluate "2*3" = Ok (VInt 6) /\
  evaluate "3/2" = Ok (VFloat 1.5) /\
  evaluate "2$" = Raise (LexicalError "$") /\
  evaluate "2 3" = Raise ParsingError /\
  evaluate "2/(1-1)" = Raise ZeroDivisionError /\
  evaluate (String "179" "") = Raise ValueError /\
  evaluate ("1/2+" ++ str_of_nat (10 ^ 400)) = Raise OverflowError /\
  evaluate "2*" = Raise (GenericException "visit_NoneType") /\
  forallb within_limits
    ["2*3"; "3/2"; "2$"; "2 3"; "2/(1-1)"; String "179" "";
     "1/2+" ++ str_of_nat (10 ^ 400); "2*"] = true.
Proof.
  split; [intros text _; exact (evaluate_outcome_ok text)|].
  split.
  - intros text H. pose proof (evaluate_outcome_ok text) as Ho.
    rewrite H in Ho. simpl in Ho.
    destruct Ho as [[c Hc] | [Hc | [Hc | [Hc | [Hc | Hc]]]]]; discriminate Hc.
  - repeat split; vm_compute; reflexivity.
Qed.

(** The text "2/(1-1)" is within the sizes, and raises. *)
Lemma evaluate_outcomes_witness :
  within_limits "2/(1-1)" = true /\ outcome_ok (evaluate "2/(1-1)").
Proof.
  assert (H : within_limits "2/(1-1)" = true) by reflexivity.
  exact (conj H (proj1 evaluate_outcomes "2/(1-1)" H)).
Defined.

(** X6.  A successful [parse] has read the whole text: the parser's lexer
    stands at the end of the text it was given (position = length, no
    current character), the buffered token is [EOF], and the tree is built
    of the four operator tokens over INTEGER leaves (and [None] where an
    operand is missing). *)
Theorem parse_reads_whole_text (text : string) (p p' : Parser.t) (node : AST) :
  Parser.init (Lexer.init text) = Ok p ->
  Parser.parse p = Ok (node, p') ->
  Lexer.text (Parser.lexer p') = text /\
  Lexer.pos (Parser.lexer p') = String.length text /\
  Lexer.current_char (Parser.lexer p') = None /\
  Parser.current_token p' = mkToken EOF VNone /\
  tree_ok node.
Proof.
  intros Hinit Hparse. apply state_ok_init in Hinit.
  pose proof (parse_result_ok text p Hinit) as H. rewrite Hparse in H.
  destruct H as (Htree & Hp' & Heof).
  pose proof (state_ok_later _ _ Hp') as (Htext & _ & Hinv).
  pose proof (state_ok_token _ _ Hp') as Htok.
  destruct Hp' as (l0 & _ & Hg). apply get_next_token_remaining in Hg.
  rewrite Heof in Hg. simpl in Hg. apply remaining_zero in Hg.
  simpl in Htext.
  split; [exact Htext|]. split; [|split; [exact Hg|split; [|exact Htree]]].
  - rewrite <- Htext. apply cursor_inv_none; assumption.
  - unfold token_ok in Htok. rewrite Heof in Htok.
    destruct (Parser.current_token p') as [ty v]. simpl in *. congruence.
Qed.

(** The parser of "1 + 2 ". *)
Lemma parse_reads_whole_text_witness :
  Lexer.text (Lexer.mk "1 + 2 " 6 None) = "1 + 2 " /\
  Lexer.pos (Lexer.mk "1 + 2 " 6 None) = String.length "1 + 2 " /\
  Lexer.current_char (Lexer.mk "1 + 2 " 6 None) = None /\
  Parser.current_token (Parser.mk (Lexer.mk "1 + 2 " 6 None) (mkToken EOF VNone)) =
    mkToken EOF VNone /\
  tree_ok (BinOp (num 1) (mkToken PLUS (VStr "+")) (num 2)).
Proof.
  apply (parse_reads_whole_text "1 + 2 "
           (Parser.mk (Lexer.mk "1 + 2 " 1 (Some " "%char)) (int_token 1))
           (Parser.mk (Lexer.mk "1 + 2 " 6 None) (mkToken EOF VNone))
           (BinOp (num 1) (mkToken PLUS (VStr "+")) (num 2)));
    vm_compute; reflexivity.
Defined.

(** X7.  True division always gives a float, also when the quotient is
    whole (8/2 is 4.0), and a float operand makes the result of [+], [-]
    and [*] a float: a division node never returns an [int], and one float
    among the operands of another node is enough for a float result. *)
Theorem division_gives_float (left_ right_ : AST) (op : Token) (v : pyval) :
  Interpreter.visit (BinOp left_ op right_) = Ok v ->
  (type op = DIV -> exists f, v = VFloat f) /\
  (type op = PLUS \/ type op = MINUS \/ type op = MUL ->
   (exists g, Interpreter.visit left_ = Ok (VFloat g)) \/
   (exists g, Interpreter.visit right_ = Ok (VFloat g)) ->
   exists f, v = VFloat f).
Proof.
  intros Hv. cbn [Interpreter.visit] in Hv. split.
  - intros Hop. rewrite Hop in Hv.
    destruct (Interpreter.visit right_) as [b|]; cbn [bind] in Hv; [|discriminate].
    destruct (py_eq_zero b); [discriminate|].
    destruct (Interpreter.visit left_) as [a|]; cbn [bind] in Hv; [|discriminate].
    pose proof (py_truediv_float a b) as H. rewrite Hv in H. exact H.
  - intros Hop Hf.
    assert (Hab : exists a b,
              Interpreter.visit left_ = Ok a /\ Interpreter.visit right_ = Ok b /\
              ((exists g, a = VFloat g) \/ (exists g, b = VFloat g))).
    { destruct (Interpreter.visit left_) as [a|]; cbn [bind] in Hv;
        [|destruct Hop as [Hop | [Hop | Hop]]; rewrite Hop in Hv; discriminate].
      destruct (Interpreter.visit right_) as [b|]; cbn [bind] in Hv;
        [|destruct Hop as [Hop | [Hop | Hop]]; rewrite Hop in Hv; discriminate].
      exists a, b. repeat split.
      destruct Hf as [[g Hg] | [g Hg]]; injection Hg as ->; eauto. }
    destruct Hab as (a & b & Ha & Hb & Hab). rewrite Ha, Hb in Hv. cbn [bind] in Hv.
    destruct Hop as [Hop | [Hop | Hop]]; rewrite Hop in Hv;
      destruct a, b; destruct Hab as [[g Hg] | [g Hg]]; try discriminate Hg;
        simpl in Hv; try discriminate;
        repeat match type of Hv with
               | context [float_of_int ?z] =>
                 destruct (float_of_int z); cbn [bind] in Hv
               end;
        try discriminate; injection Hv as <-; eauto.
Qed.

(** 8/2, and 8/2 + 1. *)
Lemma division_gives_float_witness :
  (exists f, VFloat 4 = VFloat f) /\ (exists f, VFloat 5 = VFloat f).
Proof.
  pose proof (division_gives_float (num 8) (num 2) (mkToken DIV (VStr "/"))
                                   (VFloat 4) eq_refl) as [Hdiv _].
  pose proof (division_gives_float
                (BinOp (num 8) (mkToken DIV (VStr "/")) (num 2)) (num 1)
                (mkToken PLUS (VStr "+")) (VFloat 5) eq_refl) as [_ Hadd].
  split.
  - apply Hdiv. reflexivity.
  - apply Hadd; [left; reflexivity|].
    left. exists 4%float. reflexivity.
Defined.

(** * The parser on the texts of its grammar *)

Lemma get_next_token_skip_eq (l : Lexer.t) :
  Lexer.get_next_token l = Lexer.get_next_token (Lexer.skip_whitespace l).
Proof.
  destruct (Lexer.at_space l) eqn:H.
  - apply get_next_token_space, H.
  - rewrite skip_whitespace_eq, H. reflexivity.
Qed.

(** Whitespace ahead is skipped, whatever follows. *)
Lemma get_next_token_skip (ws : string) :
  forall pre rest,
  all_chars isspace ws = true ->
  Lexer.get_next_token (at_split pre (ws ++ rest)) =
  Lexer.get_next_token (at_split (pre ++ ws) rest).
Proof.
  induction ws as [|c ws IH]; intros pre rest Hws; simpl in *.
  - rewrite app_empty_r. reflexivity.
  - apply andb_true_iff in Hws as [Hc Hws].
    rewrite get_next_token_skip_eq, skip_whitespace_eq.
    unfold Lexer.at_space at 1. cbn [Lexer.current_char at_split]. rewrite Hc.
    rewrite <- get_next_token_skip_eq, advance_split, IH by assumption.
    rewrite app_assoc_str. reflexivity.
Qed.

Ltac str_norm := repeat first [rewrite app_assoc_str | progress (cbn [append])].

Lemma not_starting_space (ws rest : string) :
  all_chars isspace ws = true -> not_starting isdigit rest = true ->
  not_starting isdigit (ws ++ rest) = true.
Proof.
  destruct ws as [|c ws]; simpl; auto.
  intros H _. apply andb_true_iff in H as [Hc _].
  destruct (isdigit c) eqn:Hd; [|reflexivity].
  apply isdigit_not_space in Hd. congruence.
Qed.

(** A symbol after whitespace. *)
Lemma get_next_token_ws_symbol (ws pre rest : string) (c : ascii) :
  all_chars isspace ws = true -> is_symbol c = true ->
  Lexer.get_next_token (at_split pre (ws ++ String c rest)) =
  (Ok (mkToken (if Ascii.eqb c "+" then PLUS else
                if Ascii.eqb c "-" then MINUS else
                if Ascii.eqb c "*" then MUL else
                if Ascii.eqb c "/" then DIV else
                if Ascii.eqb c "(" then LPAREN else RPAREN)
               (VStr (String c ""))),
   at_split (pre ++ ws ++ String c "") rest).
Proof.
  intros Hws Hc. rewrite get_next_token_skip by assumption.
  rewrite get_next_token_symbol by assumption. str_norm. reflexivity.
Qed.

(** A run of decimal digits after whitespace. *)
Lemma get_next_token_ws_uint (ws pre rest : string) (d : Decimal.uint) :
  all_chars isspace ws = true -> d <> Decimal.Nil ->
  not_starting isdigit rest = true ->
  Lexer.get_next_token (at_split pre (ws ++ NilEmpty.string_of_uint d ++ rest)) =
  (Ok (int_token (Z.of_N (N.of_uint d))),
   at_split (pre ++ ws ++ NilEmpty.string_of_uint d) rest).
Proof.
  intros Hws Hd Hrest. rewrite get_next_token_skip by assumption.
  pose proof (string_of_uint_isdigit d) as Hall.
  pose proof (int_of_digits_uint d Hd) as Hint.
  destruct (string_of_uint_app d Hd) as (c & ds & E). rewrite E in *.
  rewrite get_next_token_digits by assumption. rewrite Hint. str_norm. reflexivity.
Qed.

Lemma term_while_stop (node : AST) (p : Parser.t) :
  Parser.is_mul_div (type (Parser.current_token p)) = false ->
  term_while node p = Ok (node, p).
Proof. intros H. rewrite term_while_eq, H. reflexivity. Qed.

Lemma expr_while_stop (node : AST) (p : Parser.t) :
  Parser.is_plus_minus (type (Parser.current_token p)) = false ->
  expr_while node p = Ok (node, p).
Proof. intros H. rewrite expr_while_eq, H. reflexivity. Qed.

Lemma term_while_step (node right_ : AST) (p p1 p2 : Parser.t) :
  Parser.is_mul_div (type (Parser.current_token p)) = true ->
  Parser.eat p (type (Parser.current_token p)) = Ok p1 ->
  Parser.factor p1 = Ok (right_, p2) ->
  term_while node p = term_while (BinOp node (Parser.current_token p) right_) p2.
Proof.
  intros Hm He Hf. rewrite term_while_eq, Hm. cbv zeta.
  replace (if TokenType_eqb (type (Parser.current_token p)) MUL
           then Parser.eat p MUL
           else if TokenType_eqb (type (Parser.current_token p)) DIV
                then Parser.eat p DIV else Ok p)
    with (Parser.eat p (type (Parser.current_token p))).
  - rewrite He. cbn [bind]. rewrite Hf. reflexivity.
  - unfold Parser.is_mul_div in Hm.
    destruct (type (Parser.current_token p)); try discriminate Hm; reflexivity.
Qed.

Lemma expr_while_step (node right_ : AST) (p p1 p2 : Parser.t) :
  Parser.is_plus_minus (type (Parser.current_token p)) = true ->
  Parser.eat p (type (Parser.current_token p)) = Ok p1 ->
  Parser.term p1 = Ok (right_, p2) ->
  expr_while node p = expr_while (BinOp node (Parser.current_token p) right_) p2.
Proof.
  intros Hm He Hf. rewrite expr_while_eq, Hm. cbv zeta.
  replace (if TokenType_eqb (type (Parser.current_token p)) PLUS
           then Parser.eat p PLUS
           else if TokenType_eqb (type (Parser.current_token p)) MINUS
                then Parser.eat p MINUS else Ok p)
    with (Parser.eat p (type (Parser.current_token p))).
  - rewrite He. cbn [bind]. rewrite Hf. reflexivity.
  - unfold Parser.is_plus_minus in Hm.
    destruct (type (Parser.current_token p)); try discriminate Hm; reflexivity.
Qed.

Lemma at_split_eq (pre pre' rest rest' : string) :
  pre = pre' -> rest = rest' -> at_split pre rest = at_split pre' rest'.
Proof. intros -> ->. reflexivity. Qed.

Lemma not_starting_ws_symbol (ws r : string) (c : ascii) :
  all_chars isspace ws = true -> isdigit c = false ->
  not_starting isdigit (ws ++ String c r) = true.
Proof.
  intros Hws Hc. apply not_starting_space; [assumption|]. simpl. rewrite Hc. reflexivity.
Qed.

(** The three methods on the text of a derivation, followed by [rest]:
    [factor] returns its tree; [term] and [expr] reach their loop with its
    tree; all three with the first token of [rest] buffered. *)
Lemma grammar_parse_mut :
  (forall e, wf_expr e = true ->
     forall pre rest tok' l',
       not_starting isdigit rest = true ->
       Lexer.get_next_token (at_split (pre ++ show_expr e) rest) = (Ok tok', l') ->
       Parser.is_mul_div (type tok') = false ->
       exists tok l,
         Lexer.get_next_token (at_split pre (show_expr e ++ rest)) = (Ok tok, l) /\
         Parser.expr (Parser.mk l tok) =
         expr_while (tree_expr e) (Parser.mk l' tok')) /\
  (forall t, wf_term t = true ->
     forall pre rest tok' l',
       not_starting isdigit rest = true ->
       Lexer.get_next_token (at_split (pre ++ show_term t) rest) = (Ok tok', l') ->
       exists tok l,
         Lexer.get_next_token (at_split pre (show_term t ++ rest)) = (Ok tok, l) /\
         Parser.term (Parser.mk l tok) =
         term_while (tree_term t) (Parser.mk l' tok')) /\
  (forall f, wf_factor f = true ->
     forall pre rest tok' l',
       not_starting isdigit rest = true ->
       Lexer.get_next_token (at_split (pre ++ show_factor f) rest) = (Ok tok', l') ->
       exists tok l,
         Lexer.get_next_token (at_split pre (show_factor f ++ rest)) = (Ok tok, l) /\
         Parser.factor (Parser.mk l tok) =
         Ok (tree_factor f, Parser.mk l' tok')).
Proof.
  apply grammar_mut.
  - (* E_term *)
    intros t IHt Hwf pre rest tok' l' Hrest Hg Hmd. cbn [wf_expr show_expr tree_expr] in *.
    destruct (IHt Hwf pre rest tok' l' Hrest Hg) as (tok & l & Hg0 & Hterm).
    exists tok, l. split; [exact Hg0|].
    rewrite expr_eq, Hterm, term_while_stop by exact Hmd. reflexivity.
  - (* E_bin *)
    intros e IHe ws o t IHt Hwf pre rest tok' l' Hrest Hg Hmd.
    cbn [wf_expr show_expr tree_expr] in *.
    apply andb_true_iff in Hwf as [Hwf Hwt]. apply andb_true_iff in Hwf as [Hwe Hws].
    assert (Hmid : Lexer.get_next_token
                     (at_split (pre ++ show_expr e)
                               (ws ++ String (addop_char o) (show_term t ++ rest))) =
                   (Ok (addop_token o),
                    at_split ((pre ++ show_expr e) ++ ws ++ String (addop_char o) "")
                             (show_term t ++ rest))).
    { rewrite get_next_token_ws_symbol by (destruct o; auto).
      destruct o; reflexivity. }
    assert (Hnd : not_starting isdigit
                    (ws ++ String (addop_char o) (show_term t ++ rest)) = true)
      by (apply not_starting_ws_symbol; [assumption | destruct o; reflexivity]).
    destruct (IHe Hwe pre _ _ _ Hnd Hmid) as (tok & l & Hg0 & Hexpr);
      [destruct o; reflexivity|].
    assert (Hg' : Lexer.get_next_token
                    (at_split (((pre ++ show_expr e) ++ ws ++ String (addop_char o) "")
                               ++ show_term t) rest) = (Ok tok', l')).
    { rewrite <- Hg. f_equal. apply at_split_eq; [str_norm|]; reflexivity. }
    destruct (IHt Hwt _ rest tok' l' Hrest Hg') as (tokt & lt & Hgt & Hterm).
    rewrite term_while_stop in Hterm by exact Hmd.
    exists tok, l. split.
    + rewrite <- Hg0. f_equal. apply at_split_eq; [|str_norm]; reflexivity.
    + rewrite Hexpr.
      rewrite (expr_while_step _ (tree_term t) _ (Parser.mk lt tokt) (Parser.mk l' tok')).
      * reflexivity.
      * destruct o; reflexivity.
      * apply eat_ok; [reflexivity | exact Hgt].
      * exact Hterm.
  - (* T_factor *)
    intros f IHf Hwf pre rest tok' l' Hrest Hg. cbn [wf_term show_term tree_term] in *.
    destruct (IHf Hwf pre rest tok' l' Hrest Hg) as (tok & l & Hg0 & Hfac).
    exists tok, l. split; [exact Hg0|].
    rewrite term_eq, Hfac. reflexivity.
  - (* T_bin *)
    intros t IHt ws o f IHf Hwf pre rest tok' l' Hrest Hg.
    cbn [wf_term show_term tree_term] in *.
    apply andb_true_iff in Hwf as [Hwf Hwfac]. apply andb_true_iff in Hwf as [Hwt Hws].
    assert (Hmid : Lexer.get_next_token
                     (at_split (pre ++ show_term t)
                               (ws ++ String (mulop_char o) (show_factor f ++ rest))) =
                   (Ok (mulop_token o),
                    at_split ((pre ++ show_term t) ++ ws ++ String (mulop_char o) "")
                             (show_factor f ++ rest))).
    { rewrite get_next_token_ws_symbol by (destruct o; auto).
      destruct o; reflexivity. }
    assert (Hnd : not_starting isdigit
                    (ws ++ String (mulop_char o) (show_factor f ++ rest)) = true)
      by (apply not_starting_ws_symbol; [assumption | destruct o; reflexivity]).
    destruct (IHt Hwt pre _ _ _ Hnd Hmid) as (tok & l & Hg0 & Hterm).
    assert (Hg' : Lexer.get_next_token
                    (at_split (((pre ++ show_term t) ++ ws ++ String (mulop_char o) "")
                               ++ show_factor f) rest) = (Ok tok', l')).
    { rewrite <- Hg. f_equal. apply at_split_eq; [str_norm|]; reflexivity. }
    destruct (IHf Hwfac _ rest tok' l' Hrest Hg') as (tokf & lf & Hgf & Hfac).
    exists tok, l. split.
    + rewrite <- Hg0. f_equal. apply at_split_eq; [|str_norm]; reflexivity.
    + rewrite Hterm.
      rewrite (term_while_step _ (tree_factor f) _ (Parser.mk lf tokf) (Parser.mk l' tok')).
      * reflexivity.
      * destruct o; reflexivity.
      * apply eat_ok; [reflexivity | exact Hgf].
      * exact Hfac.
  - (* F_int *)
    intros ws d Hwf pre rest tok' l' Hrest Hg.
    cbn [wf_factor show_factor tree_factor] in *.
    apply andb_true_iff in Hwf as [Hws Hd].
    assert (Hd' : d <> Decimal.Nil) by (intros ->; discriminate).
    exists (int_token (Z.of_N (N.of_uint d))),
           (at_split (pre ++ ws ++ NilEmpty.string_of_uint d) rest).
    split.
    + rewrite <- get_next_token_ws_uint by assumption.
      f_equal. apply at_split_eq; [|str_norm]; reflexivity.
    + rewrite factor_eq. cbn [Parser.current_token type int_token TokenType_eqb].
      cbv zeta. erewrite eat_ok; [reflexivity | reflexivity | exact Hg].
  - (* F_paren *)
    intros ws1 e IHe ws2 Hwf pre rest tok' l' Hrest Hg.
    cbn [wf_factor show_factor tree_factor] in *.
    apply andb_true_iff in Hwf as [Hwf Hws2]. apply andb_true_iff in Hwf as [Hws1 Hwe].
    assert (Hopen : Lexer.get_next_token
                      (at_split pre (ws1 ++ String "(" (show_expr e ++ ws2 ++ String ")" rest))) =
                    (Ok (mkToken LPAREN (VStr "(")),
                     at_split (pre ++ ws1 ++ "(") (show_expr e ++ ws2 ++ String ")" rest))).
    { rewrite get_next_token_ws_symbol by auto. reflexivity. }
    assert (Hclose : Lexer.get_next_token
                       (at_split ((pre ++ ws1 ++ "(") ++ show_expr e)
                                 (ws2 ++ String ")" rest)) =
                     (Ok (mkToken RPAREN (VStr ")")),
                      at_split (((pre ++ ws1 ++ "(") ++ show_expr e) ++ ws2 ++ ")") rest)).
    { rewrite get_next_token_ws_symbol by auto. reflexivity. }
    assert (Hnd : not_starting isdigit (ws2 ++ String ")" rest) = true)
      by (apply not_starting_ws_symbol; [assumption | reflexivity]).
    destruct (IHe Hwe _ _ _ _ Hnd Hclose eq_refl) as (tok & l & Hg0 & Hexpr).
    rewrite expr_while_stop in Hexpr by reflexivity.
    exists (mkToken LPAREN (VStr "(")),
           (at_split (pre ++ ws1 ++ "(") (show_expr e ++ ws2 ++ String ")" rest)).
    split.
    + rewrite <- Hopen. f_equal. apply at_split_eq; [|str_norm]; reflexivity.
    + rewrite factor_eq. cbn [Parser.current_token type TokenType_eqb]. cbv zeta.
      erewrite eat_ok; [|reflexivity|exact Hg0]. cbn [bind].
      rewrite Hexpr. cbn [bind].
      erewrite eat_ok; [reflexivity | reflexivity |].
      cbn [Parser.lexer]. rewrite <- Hg. f_equal.
      apply at_split_eq; [str_norm|]; reflexivity.
Qed.

Lemma not_starting_blank (ws : string) :
  all_chars isspace ws = true -> not_starting isdigit ws = true.
Proof.
  destruct ws as [|c ws]; simpl; auto. intros H.
  apply andb_true_iff in H as [Hc _].
  destruct (isdigit c) eqn:Hd; [|reflexivity].
  apply isdigit_not_space in Hd. congruence.
Qed.

(** The text of a derivation, with whitespace after it, parses to the tree
    of the derivation. *)
Lemma parse_text_grammar (e : Expr) (ws : string) :
  wf_expr e = true -> all_chars isspace ws = true ->
  parse_text (show_expr e ++ ws) = Ok (tree_expr e).
Proof.
  intros Hwf Hws. unfold parse_text, Parser.init. rewrite at_split_init.
  assert (Hend : Lexer.get_next_token (at_split ("" ++ show_expr e) ws) =
                 (Ok (mkToken EOF VNone), at_split (("" ++ show_expr e) ++ ws) "")).
  { rewrite <- (app_empty_r ws) at 1. apply get_next_token_blank, Hws. }
  destruct grammar_parse_mut as (HE & _ & _).
  destruct (HE e Hwf "" ws _ _ (not_starting_blank ws Hws) Hend eq_refl)
    as (tok & l & Hg & Hexpr).
  rewrite Hg. cbn [bind]. unfold Parser.parse.
  rewrite Hexpr, expr_while_stop by reflexivity. reflexivity.
Qed.

Lemma strip_facts :
  (forall e, wf_expr e = true ->
             wf_expr (strip_expr e) = true /\ tree_expr (strip_expr e) = tree_expr e) /\
  (forall t, wf_term t = true ->
             wf_term (strip_term t) = true /\ tree_term (strip_term t) = tree_term t) /\
  (forall f, wf_factor f = true ->
             wf_factor (strip_factor f) = true /\
             tree_factor (strip_factor f) = tree_factor f).
Proof.
  apply grammar_mut; cbn [wf_expr wf_term wf_factor strip_expr strip_term strip_factor
                          tree_expr tree_term tree_factor all_chars andb].
  - auto.
  - intros e IHe ws o t IHt H.
    apply andb_true_iff in H as [H Ht]. apply andb_true_iff in H as [He _].
    destruct (IHe He) as [-> ->]. destruct (IHt Ht) as [-> ->]. auto.
  - auto.
  - intros t IHt ws o f IHf H.
    apply andb_true_iff in H as [H Hf]. apply andb_true_iff in H as [Ht _].
    destruct (IHt Ht) as [-> ->]. destruct (IHf Hf) as [-> ->]. auto.
  - intros ws d H. apply andb_true_iff in H as [_ ->]. auto.
  - intros ws1 e IHe ws2 H.
    apply andb_true_iff in H as [H _]. apply andb_true_iff in H as [_ He].
    destruct (IHe He) as [-> ->]. auto.
Qed.

Lemma int_value_visit :
  (forall e z, int_expr e = Some z -> Interpreter.visit (tree_expr e) = Ok (VInt z)) /\
  (forall t z, int_term t = Some z -> Interpreter.visit (tree_term t) = Ok (VInt z)) /\
  (forall f z, int_factor f = Some z -> Interpreter.visit (tree_factor f) = Ok (VInt z)).
Proof.
  apply grammar_mut; cbn [int_expr int_term int_factor tree_expr tree_term tree_factor].
  - auto.
  - intros e IHe ws o t IHt z H.
    destruct (int_expr e) as [a|]; [|discriminate].
    destruct (int_term t) as [b|]; [|discriminate].
    injection H as <-. cbn [Interpreter.visit].
    destruct o; cbn [addop_token type]; rewrite (IHe a eq_refl), (IHt b eq_refl);
      reflexivity.
  - auto.
  - intros t IHt ws o f IHf z H.
    destruct o; [|discriminate].
    destruct (int_term t) as [a|]; [|discriminate].
    destruct (int_factor f) as [b|]; [|discriminate].
    injection H as <-. cbn [Interpreter.visit mulop_token type].
    rewrite (IHt a eq_refl), (IHf b eq_refl). reflexivity.
  - intros ws d z H. injection H as <-. reflexivity.
  - auto.
Qed.

(** X8.  The parser accepts its grammar and builds the left-nested tree:
    for every derivation of the grammar (expr, term, factor) above whose
    text is within the sizes of [within_limits] (at most 100 opening
    parentheses, 200 operators and 4300 characters), with any whitespace
    before each token and at the end, [parse] returns the tree in which
    each chain of operators is nested to the left and parentheses leave no
    node; [evaluate] is [visit] of that tree. *)
Theorem parser_accepts_grammar (e : Expr) (ws : string) :
  wf_expr e = true -> all_chars isspace ws = true ->
  within_limits (show_expr e ++ ws) = true ->
  parse_text (show_expr e ++ ws) = Ok (tree_expr e) /\
  evaluate (show_expr e ++ ws) = Interpreter.visit (tree_expr e).
Proof.
  intros Hwf Hws _. pose proof (parse_text_grammar e ws Hwf Hws) as H.
  split; [exact H|]. rewrite evaluate_parse_text, H. reflexivity.
Qed.

(** The derivation of " 8 - (2+1)*2 -1" followed by a space. *)
Lemma parser_accepts_grammar_witness :
  parse_text " 8 - (2+1)*2 -1 " =
    Ok (BinOp (BinOp (num 8) (mkToken MINUS (VStr "-"))
                     (BinOp (BinOp (num 2) (mkToken PLUS (VStr "+")) (num 1))
                            (mkToken MUL (VStr "*")) (num 2)))
              (mkToken MINUS (VStr "-")) (num 1)) /\
  evaluate " 8 - (2+1)*2 -1 " = Ok (VInt 1).
Proof.
  apply (parser_accepts_grammar
           (E_bin
              (E_bin (E_term (T_factor (F_int " " (Decimal.D8 Decimal.Nil))))
                     " " Minus
                     (T_bin
                        (T_factor
                           (F_paren " "
                              (E_bin (E_term (T_factor (F_int "" (Decimal.D2 Decimal.Nil))))
                                     "" Plus
                                     (T_factor (F_int "" (Decimal.D1 Decimal.Nil))))
                              ""))
                        "" Times
                        (F_int "" (Decimal.D2 Decimal.Nil))))
              " " Minus
              (T_factor (F_int "" (Decimal.D1 Decimal.Nil))))
           " "); reflexivity.
Defined.

(** X9.  Whitespace between tokens never matters: a text of the grammar
    with whitespace before its tokens and at its end parses to the same
    tree, and evaluates to the same outcome, as the text with all of that
    whitespace removed. *)
Theorem whitespace_is_ignored (e : Expr) (ws : string) :
  wf_expr e = true -> all_chars isspace ws = true ->
  parse_text (show_expr e ++ ws) = parse_text (show_expr (strip_expr e)) /\
  evaluate (show_expr e ++ ws) = evaluate (show_expr (strip_expr e)).
Proof.
  intros Hwf Hws. destruct strip_facts as (HS & _ & _).
  destruct (HS e Hwf) as [Hwf' Htree].
  pose proof (parse_text_grammar e ws Hwf Hws) as H1.
  pose proof (parse_text_grammar (strip_expr e) "" Hwf' eq_refl) as H2.
  rewrite app_empty_r in H2.
  rewrite !evaluate_parse_text, H1, H2, Htree. auto.
Qed.

(** "  2 +  3 " and "2+3". *)
Lemma whitespace_is_ignored_witness :
  parse_text "  2 +  3 " = parse_text "2+3" /\ evaluate "  2 +  3 " = evaluate "2+3".
Proof.
  apply (whitespace_is_ignored
           (E_bin (E_term (T_factor (F_int "  " (Decimal.D2 Decimal.Nil))))
                  " " Plus
                  (T_factor (F_int "  " (Decimal.D3 Decimal.Nil))))
           " "); reflexivity.
Defined.

(** X10.  Without division, [evaluate] is integer arithmetic: a text of the
    grammar that uses only [+], [-], [*] and parentheses, and that is
    within the sizes of [within_limits] (at most 100 opening parentheses,
    200 operators and 4300 characters), evaluates to the [int] that
    ordinary arithmetic gives it, with [*] binding tighter than [+] and [-]
    and equal operators grouped from the left; the value is exact, however
    large it is. *)
Theorem division_free_is_integer_arithmetic (e : Expr) (ws : string) (z : Z) :
  wf_expr e = true -> all_chars isspace ws = true ->
  within_limits (show_expr e ++ ws) = true ->
  int_expr e = Some z ->
  evaluate (show_expr e ++ ws) = Ok (VInt z).
Proof.
  intros Hwf Hws _ Hz. destruct int_value_visit as (HV & _ & _).
  rewrite evaluate_parse_text, (parse_text_grammar e ws Hwf Hws). cbn [bind].
  apply HV, Hz.
Qed.

(** 10-2-3*2 is (10-2)-(3*2) = 2. *)
Lemma division_free_is_integer_arithmetic_witness :
  evaluate "10-2-3*2" = Ok (VInt 2).
Proof.
  apply (division_free_is_integer_arithmetic
           (E_bin
              (E_bin (E_term (T_factor (F_int "" (Decimal.D1 (Decimal.D0 Decimal.Nil)))))
                     "" Minus
                     (T_factor (F_int "" (Decimal.D2 Decimal.Nil))))
              "" Minus
              (T_bin (T_factor (F_int "" (Decimal.D3 Decimal.Nil)))
                     "" Times
                     (F_int "" (Decimal.D2 Decimal.Nil))))
           "" 2); reflexivity.
Defined.







(** * The loop of [main] *)

Lemma main_run_lines (lines : list string) :
  forallb (fun text => negb (is_exit text)) lines = true ->
  forall n stdin,
    main_run (List.length lines + n) (lines ++ stdin)%list =
    ((List.map answer lines ++ fst (main_run n stdin))%list, snd (main_run n stdin)).
Proof.
  induction lines as [|text lines IH]; intros Hno n stdin; simpl in *.
  - destruct (main_run n stdin); reflexivity.
  - apply andb_true_iff in Hno as [Htext Hno].
    apply negb_true_iff in Htext. rewrite Htext.
    rewrite (IH Hno n stdin). reflexivity.
Qed.

Lemma main_run_eof (n : nat) :
  main_run n [] = (List.repeat Printed_eof_error n, Some []).
Proof.
  induction n as [|n IH]; simpl; [reflexivity|]. rewrite IH. reflexivity.
Qed.

(** X13.  [main] answers every line until the exit command: with lines
    that are not the command followed by one that is ("exit" in any mix of
    upper and lower case), the loop is left after exactly one pass per
    line; each line before the command gets one answer, its result or the
    exception it raised, so an error never ends the session; the lines
    after the command are not read. *)
Theorem main_answers_until_exit (lines : list string) (quit : string)
        (rest : list string) (more : nat) :
  forallb (fun text => negb (is_exit text)) lines = true ->
  is_exit quit = true ->
  main_run (List.length lines + S more) (lines ++ quit :: rest)%list =
  ((List.map answer lines ++ [Printed_exit])%list, None).
Proof.
  intros Hno Hquit. rewrite (main_run_lines lines Hno).
  cbn [main_run main_iteration]. rewrite Hquit. reflexivity.
Qed.

(** A sum, a division by zero, a typing slip, then "Exit"; one line is
    left unread. *)
Lemma main_answers_until_exit_witness :
  main_run 9 ["1+2"; "1/0"; "2+@"; "Exit"; "3*3"] =
  ([Printed_result (VInt 3); Printed_error ZeroDivisionError;
    Printed_error (LexicalError "@"); Printed_exit], None).
Proof.
  apply (main_answers_until_exit ["1+2"; "1/0"; "2+@"] "Exit" ["3*3"] 5);
    reflexivity.
Defined.

(** X14.  Without the exit command [main] never ends: when standard
    input is exhausted, [input()] raises [EOFError], the handler catches it
    like any other exception, and the loop goes on; after the answers to
    the lines, every further pass prints one more error. *)
Theorem main_never_ends_without_exit (lines : list string) (n : nat) :
  forallb (fun text => negb (is_exit text)) lines = true ->
  snd (main_run n lines) <> None /\
  main_run (List.length lines + n) lines =
  ((List.map answer lines ++ List.repeat Printed_eof_error n)%list, Some []).
Proof.
  intros Hno. split.
  - revert n. induction lines as [|text lines IH]; intros n.
    + rewrite main_run_eof. discriminate.
    + simpl in Hno. apply andb_true_iff in Hno as [Htext Hno].
      apply negb_true_iff in Htext.
      destruct n as [|n]; [discriminate|].
      cbn [main_run main_iteration]. rewrite Htext.
      specialize (IH Hno n). destruct (main_run n lines). exact IH.
  - pose proof (main_run_lines lines Hno n []) as H.
    rewrite List.app_nil_r in H. rewrite H, main_run_eof. reflexivity.
Qed.

(** Two lines and no exit command: after five passes the loop is still
    running, and has printed three errors for the end of input. *)
Lemma main_never_ends_without_exit_witness :
  snd (main_run 3 ["1+2"; " exit"]) <> None /\
  main_run 5 ["1+2"; " exit"] =
  ([Printed_result (VInt 3); Printed_error (LexicalError "e");
    Printed_eof_error; Printed_eof_error; Printed_eof_error], Some []).
Proof.
  apply (main_never_ends_without_exit ["1+2"; " exit"] 3). reflexivity.
Defined.

(** * Which error a text gets *)











(** * Termination *)

(** X18.  The parser terminates on every text.  Each successful [eat]
    (the parser never eats [EOF]) leaves strictly less to read, every loop
    iteration and every parenthesis begins with one, and so the nesting of
    calls is bounded by the text: with [m] the characters not yet passed by
    the lexer, plus one for a buffered token, a counter of [3 * m + 3] is
    never used up, any larger counter gives the same outcome, and
    [evaluate] never runs out of it. *)
Theorem parser_terminates :
  (forall p ty p',
     TokenType_eqb ty EOF = false -> Parser.eat p ty = Ok p' ->
     (Parser.measure p' < Parser.measure p)%nat) /\
  (forall p n,
     (3 * Parser.measure p + 3 <= n)%nat ->
     Parser.expr_n n p = Parser.expr p /\ Parser.expr p <> Raise FuelExhausted) /\
  (forall text, evaluate text <> Raise FuelExhausted).
Proof.
  split; [|split].
  - intros p ty p' Hty He. exact (eat_measure p p' ty He Hty).
  - intros p n Hn. split; [apply expr_n_enough, Hn | apply expr_total].
  - exact evaluate_total.
Qed.

(** The parser of "(1)" after its constructor: one character passed, the
    parenthesis buffered. *)
Lemma parser_terminates_witness :
  (Parser.measure (Parser.mk (Lexer.mk "(1)" 2 (Some ")"%char)) (int_token 1)) <
   Parser.measure (Parser.mk (Lexer.mk "(1)" 1 (Some "1"%char))
                             (mkToken LPAREN (VStr "("))))%nat /\
  Parser.expr_n 20 (Parser.mk (Lexer.mk "(1)" 1 (Some "1"%char))
                              (mkToken LPAREN (VStr "("))) =
  Parser.expr (Parser.mk (Lexer.mk "(1)" 1 (Some "1"%char))
                         (mkToken LPAREN (VStr "("))).
Proof.
  destruct parser_terminates as (Heat & Hexpr & _).
  split.
  - apply (Heat _ LPAREN); reflexivity.
  - apply Hexpr. vm_compute. lia.
Defined.
